(** * riskScan: a shallow embedding of [riskScan.go] and its properties

    The Go program walks a directory tree, gives every file of more than
    1000 bytes a risk in [0.0, 1.0] and keeps, per run of files between two
    directory entries, the ten riskiest ones.

    [float64] is modelled by Rocq's primitive binary64 floats, Go strings by
    [string] (a sequence of bytes), [int64] sizes and time stamps by [Z],
    the maps by [gmap], slices and the fixed array of [trimDownResults] by
    lists.  A run-time panic is an explicit outcome. *)

From Stdlib Require Import ZArith String Ascii List Bool Lia Floats QArith Qabs.
From stdpp Require Import base option list gmap strings.

Set Warnings "-inexact-float".
Close Scope Q_scope.
Local Open Scope nat_scope.

(** ** What the program uses of Go's library and run time *)

(** The result of running code that may panic. *)
Inductive outcome (A : Type) : Type :=
| Done (a : A)
| Panic (reason : string).
Arguments Done {A} a.
Arguments Panic {A} reason.

Definition bind {A B : Type} (m : outcome A) (k : A -> outcome B) : outcome B :=
  match m with
  | Done a => k a
  | Panic reason => Panic reason
  end.

Notation "'let!' x ':=' m 'in' k" := (bind m (fun x => k))
  (at level 10, x name, m at level 100, k at level 200).

(** The two operating-system dependent functions of [path/filepath] the
    program calls: which bytes separate path elements, and [filepath.Abs]
    (whose second result, an error, the program drops). *)
Record OS : Type := {
  IsPathSeparator : ascii -> bool;
  Abs : string -> string
}.

(** An [error] value is represented by its message; [None] is [nil]. *)
Definition error : Type := string.

(** [fs.FileInfo], as far as [os.Lstat] fills it in. *)
Record FileInfo : Type := {
  info_Name : string;
  info_Size : Z;
  info_Mode : Z;
  info_ModTime : Z;
  info_IsDir : bool
}.

(** [time.Time] is an instant counted in nanoseconds, [time.Duration] a
    number of nanoseconds. *)
Definition time_Hour : Z := 3600000000000.
Definition Time_Add (t d : Z) : Z := (t + d)%Z.
Definition Time_After (t u : Z) : bool := (u <? t)%Z.

(** [filepath.Ext]: scan from the last byte towards the first, stop at a
    separator, return the suffix that starts at the first dot met.
    [Ext_loop path n] is the loop with [i = n - 1]. *)
Fixpoint Ext_loop (os : OS) (path : string) (n : nat) : string :=
  match n with
  | O => EmptyString
  | S i =>
      match String.get i path with
      | Some c =>
          if IsPathSeparator os c then EmptyString
          else if Ascii.eqb c "."%char then substring i (String.length path - i) path
          else Ext_loop os path i
      | None => EmptyString
      end
  end.

Definition Ext (os : OS) (path : string) : string :=
  Ext_loop os path (String.length path).

(** ** Part one: constants, return types, variables *)

Definition hoursInWeek : Z := 24 * 7.
Definition maxRisk : float := 1.00%float.
Definition minRisk : float := 0.00%float.
Definition dirArg : string := "--dir".
Definition outArg : string := "--out".
Definition maxResults : nat := 10.

(** A file path and its associated risk *)
Record FileResult : Type := {
  Path : string;
  Risk : float
}.

(** A directory, potentially containing files with risks *)
Record DirResult : Type := {
  Dir : string;
  Results : list FileResult
}.

(** ** Part two: risk assessment rules

    The package variable [extensionRiskMap] is read by [assessExtension];
    it is passed along explicitly. *)

Definition assessExtension (os : OS) (extensionRiskMap : gmap string float)
    (path : string) : float :=
  let extension := Ext os path in
  match extensionRiskMap !! extension with
  | Some risk => risk
  | None => 0%float
  end.

Definition checkRiskRange (risk : float) : float :=
  if (maxRisk <? risk)%float then maxRisk
  else if (risk <? minRisk)%float then minRisk
  else risk.

(** [now] is what [time.Now()] answers when the file is assessed. *)
Definition assessFileRisk (os : OS) (extensionRiskMap : gmap string float)
    (now : Z) (path : string) (info : FileInfo) : float :=
  let risk := 0.0%float in
  let risk := if (1000000 <? info_Size info)%Z then (risk + 0.25)%float else risk in
  let risk := (risk + assessExtension os extensionRiskMap path)%float in
  let timeLastWeek := Time_Add now (time_Hour * - hoursInWeek)%Z in
  let risk := if Time_After (info_ModTime info) timeLastWeek then (risk + 0.20)%float else risk in
  risk.

Definition assessDirNameLength (path : string) : float :=
  let size := String.length path in
  if size <? 5 then 0.25%float
  else if 15 <? size then (-0.10)%float
  else 0.5%float.

(** [info] is not nil here: the only caller has called [info.IsDir()]
    before. *)
Definition assessDirRisk (os : OS) (extensionRiskMap : gmap string float)
    (now : Z) (path : string) (info : FileInfo) (err : option error)
    : list FileResult :=
  let result := [] in
  match err with
  | None =>
      if (1000 <? info_Size info)%Z then
        let fullRisk :=
          (assessFileRisk os extensionRiskMap now path info + assessDirNameLength path)%float in
        let fileResult := {| Path := Abs os path; Risk := checkRiskRange fullRisk |} in
        result ++ [fileResult]
      else result
  | Some _ => result
  end.

(** ** Part three: util functions *)

Definition initExtensionRiskMap : gmap string float :=
  let extensionValues : gmap string float := empty in
  let extensionValues := insert ".zip" 0.15%float extensionValues in
  let extensionValues := insert ".tar" 0.15%float extensionValues in
  let extensionValues := insert ".png" (-0.20)%float extensionValues in
  let extensionValues := insert ".jpg" (-0.20)%float extensionValues in
  let extensionValues := insert ".jpeg" (-0.20)%float extensionValues in
  let extensionValues := insert ".csv" 0.75%float extensionValues in
  let extensionValues := insert ".json" 0.75%float extensionValues in
  extensionValues.

(** [args[i]]; every use below is guarded by the bound test Go's index
    expression needs, so the default is never returned. *)
Definition index (args : list string) (i : nat) : string :=
  default EmptyString (args !! i).

(** The [for i := 0; i < size; i++] loop of [readCommandLineArgs].  The
    body may advance [i] itself, twice at most; every iteration advances it,
    so [size] iterations are always enough ([fuel] counts them). *)
Fixpoint readCommandLineArgs_loop (fuel : nat) (args : list string) (i : nat)
    (result : gmap string string) : gmap string string :=
  match fuel with
  | O => result
  | S fuel =>
      let size := length args in
      if i <? size then
        let '(result, i) :=
          if String.eqb dirArg (index args i) && (i + 1 <? size)
          then (insert dirArg (index args (i + 1)) result, i + 1)
          else (result, i) in
        let '(result, i) :=
          if String.eqb outArg (index args i) && (i + 1 <? size)
          then (insert outArg (index args (i + 1)) result, i + 1)
          else (result, i) in
        readCommandLineArgs_loop fuel args (i + 1) result
      else result
  end.

(** [os.Args[1:]] panics on an empty [os.Args]. *)
Definition readCommandLineArgs (os_Args : list string) : outcome (gmap string string) :=
  match os_Args with
  | [] => Panic "slice bounds out of range [1:0]"
  | _ :: args =>
      let size := length args in
      Done (readCommandLineArgs_loop size args 0 empty)
  end.

Fixpoint findSmallestRisk_loop (results : list FileResult) (i : nat)
    (smallestRisk : float) (smallestRiskIndex : nat) : float * nat :=
  match results with
  | [] => (smallestRisk, smallestRiskIndex)
  | r :: results =>
      if (Risk r <? smallestRisk)%float
      then findSmallestRisk_loop results (S i) (Risk r) i
      else findSmallestRisk_loop results (S i) smallestRisk smallestRiskIndex
  end.

Definition findSmallestRisk (results : list FileResult) : float * nat :=
  findSmallestRisk_loop results 0 maxRisk 0.

(** The zero value of [FileResult]. *)
Definition zeroFileResult : FileResult := {| Path := EmptyString; Risk := 0%float |}.

(** The [for i, result := range results] loop of [trimDownResults]. *)
Fixpoint trimDownResults_loop (results : list FileResult) (i : nat)
    (trimmedResults : list FileResult) : list FileResult :=
  match results with
  | [] => trimmedResults
  | result :: results =>
      if i <? maxResults then
        trimDownResults_loop results (S i) (<[i := result]> trimmedResults)
      else
        let '(smallestRisk, smallestRiskIndex) := findSmallestRisk trimmedResults in
        if (smallestRisk <? Risk result)%float
        then trimDownResults_loop results (S i) (<[smallestRiskIndex := result]> trimmedResults)
        else trimDownResults_loop results (S i) trimmedResults
  end.

Definition trimDownResults (results : list FileResult) : list FileResult :=
  if length results <=? maxResults then results
  else
    let trimmedResults := replicate maxResults zeroFileResult in
    trimDownResults_loop results 0 trimmedResults.

(** [for _, r := range src { dst = append(dst, r) }] *)
Definition appendAll (dst src : list FileResult) : list FileResult :=
  foldl (fun (dst : list FileResult) r => dst ++ [r]) dst src.

(** ** Part four: main *)

(** One call of the function handed to [filepath.Walk]: the arguments
    [Walk] passes, and the clock reading a [time.Now()] would give during
    the call.  [we_info = None] is a nil [fs.FileInfo], which is what [Walk]
    passes when [os.Lstat] fails on the entry. *)
Record WalkEntry : Type := {
  we_path : string;
  we_info : option FileInfo;
  we_err : option error;
  we_now : Z
}.

(** The variables the walk function reads and writes. *)
Record Vars : Type := {
  extensionRiskMap : gmap string float;
  finalResult : DirResult;
  currentResults : list FileResult
}.

(** Save the results of the current directory, but only the 10 most risky,
    and start over. *)
Definition flush (v : Vars) : Vars :=
  {| extensionRiskMap := extensionRiskMap v;
     finalResult :=
       {| Dir := Dir (finalResult v);
          Results := appendAll (Results (finalResult v)) (trimDownResults (currentResults v)) |};
     currentResults := [] |}.

(** The function literal passed to [filepath.Walk].  [info.IsDir()] is the
    first thing it evaluates: on a nil [info] this is a nil dereference. *)
Definition walkFn (os : OS) (v : Vars) (e : WalkEntry) : outcome Vars :=
  match we_info e with
  | None => Panic "invalid memory address or nil pointer dereference"
  | Some info =>
      if info_IsDir info then Done (flush v)
      else
        let dirResult :=
          assessDirRisk os (extensionRiskMap v) (we_now e) (we_path e) info (we_err e) in
        Done {| extensionRiskMap := extensionRiskMap v;
                finalResult := finalResult v;
                currentResults := appendAll (currentResults v) dirResult |}
  end.

(** [filepath.Walk] calls the function once per entry, in order; the
    function always returns nil, so the walk never stops early unless a call
    panics. *)
Fixpoint Walk (os : OS) (v : Vars) (entries : list WalkEntry) : outcome Vars :=
  match entries with
  | [] => Done v
  | e :: entries => let! v := walkFn os v e in Walk os v entries
  end.

(** From [var finalResult DirResult] to the final save after the walk. *)
Definition scan (os : OS) (extensionRiskMap : gmap string float) (rootDir : string)
    (entries : list WalkEntry) : outcome DirResult :=
  let v := {| extensionRiskMap := extensionRiskMap;
              finalResult := {| Dir := Abs os rootDir; Results := [] |};
              currentResults := [] |} in
  let! v := Walk os v entries in
  Done (finalResult (flush v)).

(** What the process can be seen to do: [fmt.Println], [fmt.Printf],
    [os.OpenFile(name, os.O_CREATE, os.ModePerm)] with its error result,
    [encoder.Encode(data)] on the file (its error is dropped), and the
    deferred [outFile.Close()]. *)
Inductive Event : Type :=
| EvPrintln (line : string)
| EvPrintf (format : string) (arg : error)
| EvOpenFile (name : string) (fileOpenErr : option error)
| EvEncode (name : string) (data : DirResult)
| EvClose (name : string).

(** What the process finds around it: its arguments, the calls [Walk]
    makes for a root directory, and whether a file can be opened. *)
Record Env : Type := {
  os_Args : list string;
  walk_of : string -> list WalkEntry;
  open_error : string -> option error
}.

Definition main (os : OS) (env : Env) : list Event * outcome unit :=
  let extensionRiskMap := initExtensionRiskMap in
  match readCommandLineArgs (os_Args env) with
  | Panic reason => ([], Panic reason)
  | Done args =>
      match args !! dirArg, args !! outArg with
      | Some rootDir, Some outFileName =>
          match scan os extensionRiskMap rootDir (walk_of env rootDir) with
          | Panic reason => ([], Panic reason)
          | Done finalResult =>
              match open_error env outFileName with
              | Some fileOpenErr =>
                  ([EvOpenFile outFileName (Some fileOpenErr);
                    EvPrintf "Error while opening the output file: %v\n" fileOpenErr;
                    EvClose outFileName], Done tt)
              | None =>
                  ([EvOpenFile outFileName None; EvEncode outFileName finalResult;
                    EvClose outFileName], Done tt)
              end
          end
      | _, _ =>
          ([EvPrintln "Both '--dir' and '--out' need to be set. Exiting."], Done tt)
      end
  end.

(** ** Order on binary64 values

    [<?] and [<=?] on primitive floats are IEEE comparisons: they answer
    [false] as soon as one side is NaN. *)

Module F64.
Local Open Scope Z_scope.

(** A key that orders the non-NaN values the way [SFcompare] does. *)
Definition key (f : spec_float) : option (Z * Z * Z) :=
  match f with
  | S754_nan => None
  | S754_infinity true => Some (-2, 0, 0)
  | S754_infinity false => Some (2, 0, 0)
  | S754_zero _ => Some (0, 0, 0)
  | S754_finite true m e => Some (-1, - e, Z.neg m)
  | S754_finite false m e => Some (1, e, Z.pos m)
  end.

Definition lex_lt (a b : Z * Z * Z) : Prop :=
  let '(a1, a2, a3) := a in
  let '(b1, b2, b3) := b in
  a1 < b1 \/ (a1 = b1 /\ (a2 < b2 \/ (a2 = b2 /\ a3 < b3))).

Definition lt (x y : float) : Prop := (x <? y)%float = true.
Definition le (x y : float) : Prop := (x <=? y)%float = true.
Definition eqv (x y : float) : Prop := (x =? y)%float = true.

(** [x] is a number (not NaN). *)
Definition num (x : float) : Prop := (x =? x)%float = true.

Definition fkey (x : float) : option (Z * Z * Z) := key (Prim2SF x).

(** The rational a finite binary64 value stands for. *)
Definition to_Q (x : float) : option Q :=
  match Prim2SF x with
  | S754_zero _ => Some (Qmake 0 1)
  | S754_finite s m e =>
      Some (Qmult (Qmake (if s then Z.neg m else Z.pos m) 1) (Qpower (Qmake 2 1) e))
  | _ => None
  end.

End F64.

(** ** Notions the statements use *)

(** A risk within the bounds [minRisk] and [maxRisk] (so, not NaN). *)
Definition risk_in_range (r : float) : Prop := F64.le minRisk r /\ F64.le r maxRisk.

(** What one turn of the loop of [trimDownResults] does with [result] once
    the array is full: the [else] branch of its body. *)
Definition offer (trimmedResults : list FileResult) (result : FileResult)
    : list FileResult :=
  let '(smallestRisk, smallestRiskIndex) := findSmallestRisk trimmedResults in
  if (smallestRisk <? Risk result)%float
  then <[smallestRiskIndex := result]> trimmedResults
  else trimmedResults.

(** The table of extension deltas as the specification lists it, read as a
    function of the extension. *)
Definition extension_delta (ext : string) : float :=
  if String.eqb ext ".zip" then 0.15%float
  else if String.eqb ext ".tar" then 0.15%float
  else if String.eqb ext ".png" then (-0.20)%float
  else if String.eqb ext ".jpg" then (-0.20)%float
  else if String.eqb ext ".jpeg" then (-0.20)%float
  else if String.eqb ext ".csv" then 0.75%float
  else if String.eqb ext ".json" then 0.75%float
  else 0.0%float.

(** The entry is a file (not a directory) whose [Lstat] succeeded. *)
Definition is_file (e : WalkEntry) : Prop :=
  exists info, we_info e = Some info /\ info_IsDir info = false.

(** The results one entry contributes when it is a file. *)
Definition score (os : OS) (extensionRiskMap : gmap string float) (e : WalkEntry)
    : list FileResult :=
  match we_info e with
  | Some info => assessDirRisk os extensionRiskMap (we_now e) (we_path e) info (we_err e)
  | None => []
  end.

Definition scores (os : OS) (extensionRiskMap : gmap string float)
    (entries : list WalkEntry) : list FileResult :=
  concat (map (score os extensionRiskMap) entries).

(** The entry is one the program scores: no error, more than 1000 bytes. *)
Definition qualifying (e : WalkEntry) : bool :=
  match we_info e, we_err e with
  | Some info, None => (1000 <? info_Size info)%Z
  | _, _ => false
  end.

(** [r] was produced by [assessDirRisk] from a file entry of [entries]. *)
Definition scored_from (os : OS) (m : gmap string float) (entries : list WalkEntry)
    (r : FileResult) : Prop :=
  exists e info,
    e ∈ entries /\ we_info e = Some info /\ info_IsDir info = false /\
    r ∈ assessDirRisk os m (we_now e) (we_path e) info (we_err e).

(** The array of [trimDownResults] after the first [n] turns of its loop. *)
Definition array_after (results : list FileResult) (n : nat) : list FileResult :=
  trimDownResults_loop (take n results) 0 (replicate maxResults zeroFileResult).

(** Two file descriptions that agree on size, modification time and kind. *)
Definition same_info (i1 i2 : FileInfo) : Prop :=
  info_Size i1 = info_Size i2 /\ info_ModTime i1 = info_ModTime i2 /\
  info_IsDir i1 = info_IsDir i2.

(** Two calls of the walk function on the same path, at the same clock
    reading, that agree on whether the entry could be read and on size,
    modification time and kind. *)
Definition same_entry (e1 e2 : WalkEntry) : Prop :=
  we_path e1 = we_path e2 /\ we_now e1 = we_now e2 /\
  (we_err e1 = None <-> we_err e2 = None) /\
  match we_info e1, we_info e2 with
  | Some i1, Some i2 => same_info i1 i2
  | None, None => True
  | _, _ => False
  end.

(** Where a result entered the input of [trimDownResults]: the position of
    the first result with its path. *)
Definition inserted_at (results : list FileResult) (e : FileResult) : nat :=
  match list_find (fun r => Path r = Path e) results with
  | Some (i, _) => i
  | None => length results
  end.

(** The tie-break as the specification words it: whenever a candidate is
    accepted, the result it evicts was inserted no later than any other
    result of the same (minimum) risk in the array. *)
Definition evicts_earliest_inserted (results : list FileResult) : Prop :=
  forall (n : nat) (candidate evicted other : FileResult),
    maxResults <= n ->
    results !! n = Some candidate ->
    let trimmedResults := array_after results n in
    F64.lt (fst (findSmallestRisk trimmedResults)) (Risk candidate) ->
    trimmedResults !! snd (findSmallestRisk trimmedResults) = Some evicted ->
    other ∈ trimmedResults ->
    F64.eqv (Risk other) (Risk evicted) ->
    inserted_at results evicted <= inserted_at results other.

(** The command-line reading a flag's value "consumed, and not seen as a
    flag" describes: a flag followed by an argument takes it as its value,
    and reading resumes after the value. *)
Fixpoint parse_consuming (args : list string) (result : gmap string string)
    : gmap string string :=
  match args with
  | [] => result
  | flag :: rest =>
      match rest with
      | [] => result
      | value :: rest' =>
          if String.eqb dirArg flag || String.eqb outArg flag
          then parse_consuming rest' (insert flag value result)
          else parse_consuming rest result
      end
  end.

(** The array holds [maxResults] risks within bounds, none smaller than a
    discarded one. *)
Definition selection_inv (kept discarded : list FileResult) : Prop :=
  length kept = maxResults /\
  (forall r, r ∈ kept -> risk_in_range (Risk r)) /\
  (forall r d, r ∈ kept -> d ∈ discarded -> F64.le (Risk d) (Risk r)).

(** ** Sample inputs *)

Module Sample.

(** A Unix system: [/] separates, and [filepath.Abs] leaves a clean
    absolute path as it is and joins another to the working directory. *)
Definition unix : OS :=
  {| IsPathSeparator := fun c => Ascii.eqb c "/"%char;
     Abs := fun path =>
       match path with
       | String "/"%char _ => path
       | _ => String.append "/home/scan/" path
       end |}.

Definition now : Z := 1700000000000000000.

Definition old : Z := (now - 30 * 24 * time_Hour)%Z.

Definition recent : Z := (now - time_Hour)%Z.

Definition file (name : string) (size mtime : Z) : FileInfo :=
  {| info_Name := name; info_Size := size; info_Mode := 420;
     info_ModTime := mtime; info_IsDir := false |}.

Definition big_csv_info : FileInfo := file "big.csv" 2000000 recent.

Definition dir (name : string) : FileInfo :=
  {| info_Name := name; info_Size := 4096; info_Mode := 2147484141;
     info_ModTime := old; info_IsDir := true |}.

Definition entry (path name : string) (size mtime : Z) : WalkEntry :=
  {| we_path := path; we_info := Some (file name size mtime);
     we_err := None; we_now := now |}.

Definition dir_entry (path name : string) : WalkEntry :=
  {| we_path := path; we_info := Some (dir name); we_err := None; we_now := now |}.

Definition big_csv : WalkEntry :=
  entry "/data/scans1/big.csv" "big.csv" 2000000 recent.

Definition img_png : WalkEntry :=
  entry "/data/img.png" "img.png" 500 recent.

(** An entry [Lstat] failed on: [Walk] passes a nil [info] and the error. *)
Definition vanished : WalkEntry :=
  {| we_path := "/data/gone.txt"; we_info := None;
     we_err := Some "lstat /data/gone.txt: no such file or directory";
     we_now := now |}.

(** Twelve files of one directory, in the order [Walk] visits them.  Their
    risks are 0, 0.25, eight times 0.45, 0.25 and 0.45. *)
Definition twelve : list WalkEntry :=
  [ entry "/d/a-very-long-file-name" "a-very-long-file-name" 2000 old;
    entry "/d/b" "b" 2000 old;
    entry "/d/c" "c" 2000 recent;
    entry "/d/d" "d" 2000 recent;
    entry "/d/e" "e" 2000 recent;
    entry "/d/f" "f" 2000 recent;
    entry "/d/g" "g" 2000 recent;
    entry "/d/h" "h" 2000 recent;
    entry "/d/i" "i" 2000 recent;
    entry "/d/j" "j" 2000 recent;
    entry "/d/k" "k" 2000 old;
    entry "/d/l" "l" 2000 recent ].

Definition twelve_results : list FileResult := scores unix initExtensionRiskMap twelve.

(** The same twelve files, seen through other [FileInfo] values with the
    same sizes and modification times. *)
Definition twelve_again : list WalkEntry :=
  map (fun e =>
         {| we_path := we_path e;
            we_info :=
              match we_info e with
              | Some i =>
                  Some {| info_Name := info_Name i; info_Size := info_Size i; info_Mode := 384;
                          info_ModTime := info_ModTime i; info_IsDir := info_IsDir i |}
              | None => None
              end;
            we_err := we_err e; we_now := we_now e |}) twelve.

(** The second, eleventh and twelfth of their results. *)
Definition result_b : FileResult := {| Path := "/d/b"; Risk := 0.25%float |}.

Definition result_k : FileResult := {| Path := "/d/k"; Risk := 0.25%float |}.

Definition result_l : FileResult := {| Path := "/d/l"; Risk := 0.45%float |}.

(** The variables as [main] sets them up before the walk. *)
Definition start : Vars :=
  {| extensionRiskMap := initExtensionRiskMap;
     finalResult := {| Dir := "/d"; Results := [] |};
     currentResults := [] |}.

(** A walk during which one file disappears between the reading of its
    directory and its [Lstat]. *)
Definition racy_walk : list WalkEntry :=
  [ dir_entry "/data" "data";
    vanished;
    img_png;
    dir_entry "/data/scans1" "scans1";
    big_csv ].

Definition racy_env : Env :=
  {| os_Args := ["riskScan"; "--dir"; "/data"; "--out"; "out.json"];
     walk_of := fun _ => racy_walk;
     open_error := fun _ => None |}.

Definition env (args : list string) : Env :=
  {| os_Args := "riskScan" :: args;
     walk_of := fun _ => twelve;
     open_error := fun _ => None |}.

End Sample.

(** ** The rest of the program *)

(** [strings.Split] with a separator of one byte: the pieces of [s] between
    the separators, at least one piece. *)
Fixpoint Split (s : string) (sep : ascii) : list string :=
  match s with
  | EmptyString => [EmptyString]
  | String c rest =>
      if Ascii.eqb c sep then EmptyString :: Split rest sep
      else
        match Split rest sep with
        | piece :: pieces => String c piece :: pieces
        | [] => [String c EmptyString]
        end
  end.

(** [strings.Join] *)
Fixpoint Join (elems : list string) (sep : string) : string :=
  match elems with
  | [] => EmptyString
  | [elem] => elem
  | elem :: elems => String.append elem (String.append sep (Join elems sep))
  end.

(** [getDir], with [os.PathSeparator] as [sep].  The slice expression
    [splitString[:1]] panics on an empty slice; the result of [strings.Join]
    is dropped and [dir] is returned as declared. *)
Definition getDir (sep : ascii) (path : string) : outcome string :=
  let splitString := Split path sep in
  match splitString with
  | [] => Panic "slice bounds out of range [:1] with capacity 0"
  | _ :: _ =>
      let everythingButTheFileName := take 1 splitString in
      let dir := EmptyString in
      let _ := Join everythingButTheFileName (String sep EmptyString) in
      Done dir
  end.

(** ** More notions the statements use *)

(** The entry comes with a file description (its [info] is not nil). *)
Definition has_info (e : WalkEntry) : Prop := is_Some (we_info e).

(** The entry is a directory: the walk function flushes on it. *)
Definition is_dir_entry (e : WalkEntry) : bool :=
  match we_info e with
  | Some info => info_IsDir info
  | None => false
  end.

(** The runs of entries between two directory entries, in walk order: the
    entries before the first directory entry, those between the first and
    the second, and so on. *)
Fixpoint runs (entries : list WalkEntry) : list (list WalkEntry) :=
  match entries with
  | [] => [[]]
  | e :: entries =>
      if is_dir_entry e then [] :: runs entries
      else
        match runs entries with
        | run :: others => (e :: run) :: others
        | [] => [[e]]
        end
  end.

(** [pending] put in front of the first of [groups]. *)
Definition prefix_first (pending : list FileResult) (groups : list (list FileResult))
    : list (list FileResult) :=
  match groups with
  | group :: groups => (pending ++ group) :: groups
  | [] => [pending]
  end.

(** A command line holds [value] right after [flag]. *)
Definition follows (args : list string) (flag value : string) : Prop :=
  exists i, args !! i = Some flag /\ args !! S i = Some value.

(** More sample inputs. *)
Module Sample2.

(** A walk over two directories: [/d] with the twelve sample files, then
    [/d/sub] with two small files and [big.csv]. *)
Definition tree : list WalkEntry :=
  Sample.dir_entry "/d" "d" :: Sample.twelve ++
  [ Sample.dir_entry "/d/sub" "sub";
    Sample.entry "/d/sub/a.png" "a.png" 500 Sample.recent;
    Sample.entry "/d/sub/big.csv" "big.csv" 2000000 Sample.recent;
    Sample.entry "/d/sub/c.zip" "c.zip" 3000 Sample.old ].

(** A walk in which no run has more than ten scored files. *)
Definition small_tree : list WalkEntry :=
  [ Sample.dir_entry "/d" "d";
    Sample.entry "/d/b" "b" 2000 Sample.old;
    Sample.entry "/d/c" "c" 2000 Sample.recent;
    Sample.dir_entry "/d/sub" "sub";
    Sample.entry "/d/sub/a.png" "a.png" 500 Sample.recent;
    Sample.entry "/d/sub/big.csv" "big.csv" 2000000 Sample.recent ].

(** Twelve results whose first ten are at least as risky as the rest. *)
Definition settled : list FileResult :=
  replicate 10 {| Path := "/d/x"; Risk := 0.5%float |} ++
  [ {| Path := "/d/y"; Risk := 0.5%float |}; {| Path := "/d/z"; Risk := 0.25%float |} ].

Definition env (args : list string) (open_err : option error) : Env :=
  {| os_Args := "riskScan" :: args;
     walk_of := fun _ => small_tree;
     open_error := fun _ => open_err |}.

End Sample2.

(** ** The selection, directory by directory *)

(** The directory a path lies in: the path up to its last separator. *)
Fixpoint dir_of (os : OS) (path : string) : option string :=
  match path with
  | EmptyString => None
  | String c rest =>
      match dir_of os rest with
      | Some dir => Some (String c dir)
      | None => if IsPathSeparator os c then Some EmptyString else None
      end
  end.

(** The entry is a file that lies in [dir]. *)
Definition file_in (os : OS) (dir : string) (e : WalkEntry) : bool :=
  match we_info e with
  | Some info =>
      negb (info_IsDir info) && bool_decide (dir_of os (Abs os (we_path e)) = Some dir)
  | None => false
  end.

(** The result is the one of a file that lies in [dir]. *)
Definition result_in (os : OS) (dir : string) (r : FileResult) : bool :=
  bool_decide (dir_of os (Path r) = Some dir).

(** The count as the specification words it: whenever the files of a
    directory are met one after the other and more than 10 of them are
    scored, a finished scan delivers exactly 10 results for that directory. *)
Definition emits_ten_per_directory (os : OS) (rootDir : string)
    (entries : list WalkEntry) : Prop :=
  forall (dir : string) (before files after : list WalkEntry) (d : DirResult),
    entries = before ++ files ++ after ->
    List.filter (file_in os dir) entries = files ->
    10 < length (List.filter qualifying files) ->
    scan os initExtensionRiskMap rootDir entries = Done d ->
    length (List.filter (result_in os dir) (Results d)) = 10.

(** Sample trees in which a run of files is not one directory's files. *)
Module Sample3.

Definition csv (path name : string) : WalkEntry :=
  Sample.entry path name 2000 Sample.recent.

Definition plain (path name : string) : WalkEntry :=
  Sample.entry path name 2000 Sample.old.

(** [/d] holds the directory [a], with ten files of risk 1.0, and after
    it twelve files of its own, of risk 0.5. *)
Definition ten_in_a : list WalkEntry :=
  [ csv "/d/a/f0.csv" "f0.csv"; csv "/d/a/f1.csv" "f1.csv"; csv "/d/a/f2.csv" "f2.csv";
    csv "/d/a/f3.csv" "f3.csv"; csv "/d/a/f4.csv" "f4.csv"; csv "/d/a/f5.csv" "f5.csv";
    csv "/d/a/f6.csv" "f6.csv"; csv "/d/a/f7.csv" "f7.csv"; csv "/d/a/f8.csv" "f8.csv";
    csv "/d/a/f9.csv" "f9.csv" ].

Definition twelve_in_d : list WalkEntry :=
  [ plain "/d/b00" "b00"; plain "/d/b01" "b01"; plain "/d/b02" "b02"; plain "/d/b03" "b03";
    plain "/d/b04" "b04"; plain "/d/b05" "b05"; plain "/d/b06" "b06"; plain "/d/b07" "b07";
    plain "/d/b08" "b08"; plain "/d/b09" "b09"; plain "/d/b10" "b10"; plain "/d/b11" "b11" ].

Definition files_after_subdirectory : list WalkEntry :=
  (Sample.dir_entry "/d" "d" :: Sample.dir_entry "/d/a" "a" :: ten_in_a)
  ++ twelve_in_d ++ [].

(** [/d] holds the directory [a], with twelve files of risk 0.5, and after
    it one file of its own, of risk 1.0. *)
Definition twelve_in_a : list WalkEntry :=
  [ plain "/d/a/f00" "f00"; plain "/d/a/f01" "f01"; plain "/d/a/f02" "f02";
    plain "/d/a/f03" "f03"; plain "/d/a/f04" "f04"; plain "/d/a/f05" "f05";
    plain "/d/a/f06" "f06"; plain "/d/a/f07" "f07"; plain "/d/a/f08" "f08";
    plain "/d/a/f09" "f09"; plain "/d/a/f10" "f10"; plain "/d/a/f11" "f11" ].

Definition file_after_subdirectory : list WalkEntry :=
  [ Sample.dir_entry "/d" "d"; Sample.dir_entry "/d/a" "a" ]
  ++ twelve_in_a ++ [ csv "/d/z.csv" "z.csv" ].

End Sample3.

(** ** Facts on the order of binary64 values

    The order facts the selection proofs need, for operands known to be
    comparable. *)

Module F64Facts.
Import F64.
Local Open Scope Z_scope.

Lemma SFcompare_key f1 f2 :
  match SFcompare f1 f2 with
  | None => key f1 = None \/ key f2 = None
  | Some Lt => exists a b, key f1 = Some a /\ key f2 = Some b /\ lex_lt a b
  | Some Eq => exists a, key f1 = Some a /\ key f2 = Some a
  | Some Gt => exists a b, key f1 = Some a /\ key f2 = Some b /\ lex_lt b a
  end.
Proof.
  destruct f1 as [s1|s1| |s1 m1 e1], f2 as [s2|s2| |s2 m2 e2]; simpl;
    try destruct s1; try destruct s2; simpl;
    try (left; reflexivity); try (right; reflexivity);
    try (eexists; split; [reflexivity|reflexivity]);
    try (eexists _, _; split; [reflexivity|split; [reflexivity|simpl; lia]]).
  - destruct (Z.compare_spec e1 e2) as [He|He|He].
    + change (Pos.compare_cont Eq m1 m2) with (Pos.compare m1 m2).
      destruct (Pos.compare_spec m1 m2) as [Hm|Hm|Hm]; simpl.
      * subst. eexists; split; reflexivity.
      * eexists _, _; split; [reflexivity|split; [reflexivity|simpl; lia]].
      * eexists _, _; split; [reflexivity|split; [reflexivity|simpl; lia]].
    + eexists _, _; split; [reflexivity|split; [reflexivity|simpl; lia]].
    + eexists _, _; split; [reflexivity|split; [reflexivity|simpl; lia]].
  - destruct (Z.compare_spec e1 e2) as [He|He|He].
    + change (Pos.compare_cont Eq m1 m2) with (Pos.compare m1 m2).
      destruct (Pos.compare_spec m1 m2) as [Hm|Hm|Hm]; simpl.
      * subst. eexists; split; reflexivity.
      * eexists _, _; split; [reflexivity|split; [reflexivity|simpl; lia]].
      * eexists _, _; split; [reflexivity|split; [reflexivity|simpl; lia]].
    + eexists _, _; split; [reflexivity|split; [reflexivity|simpl; lia]].
    + eexists _, _; split; [reflexivity|split; [reflexivity|simpl; lia]].
Qed.

Lemma lt_key x y :
  lt x y <-> exists a b, fkey x = Some a /\ fkey y = Some b /\ lex_lt a b.
Proof.
  unfold lt, fkey. rewrite FloatAxioms.ltb_spec. unfold SFltb.
  pose proof (SFcompare_key (Prim2SF x) (Prim2SF y)) as H.
  destruct (SFcompare (Prim2SF x) (Prim2SF y)) as [[]|]; split; intros G;
    try discriminate; try reflexivity; try exact H.
  - destruct H as (a & Hx & Hy). destruct G as (a' & b' & Ha & Hb & Hlt).
    rewrite Hx in Ha. rewrite Hy in Hb.
    inversion Ha; inversion Hb; subst. destruct b' as [[? ?] ?]. simpl in Hlt. lia.
  - destruct H as (a & b & Hx & Hy & Hgt). destruct G as (a' & b' & Ha & Hb & Hlt).
    rewrite Hx in Ha. rewrite Hy in Hb.
    inversion Ha; inversion Hb; subst.
    destruct a' as [[? ?] ?], b' as [[? ?] ?]. simpl in *. lia.
  - destruct G as (a' & b' & Ha & Hb & _). destruct H; congruence.
Qed.

Lemma le_key x y :
  le x y <-> exists a b, fkey x = Some a /\ fkey y = Some b /\ (lex_lt a b \/ a = b).
Proof.
  unfold le, fkey. rewrite FloatAxioms.leb_spec. unfold SFleb.
  pose proof (SFcompare_key (Prim2SF x) (Prim2SF y)) as H.
  destruct (SFcompare (Prim2SF x) (Prim2SF y)) as [[]|]; split; intros G;
    try discriminate; try reflexivity.
  - destruct H as (a & Ha & Hb). exists a, a. auto.
  - destruct H as (a & b & Ha & Hb & Hlt). exists a, b. auto.
  - destruct H as (a & b & Hx & Hy & Hgt). destruct G as (a' & b' & Ha & Hb & Hle).
    rewrite Hx in Ha. rewrite Hy in Hb.
    inversion Ha; inversion Hb; subst.
    destruct a' as [[? ?] ?], b' as [[? ?] ?]. simpl in *.
    destruct Hle as [Hlt|Heq]; [lia|]. inversion Heq; subst. lia.
  - destruct G as (a' & b' & Ha & Hb & _). destruct H; congruence.
Qed.

Lemma num_key x : num x <-> exists a, fkey x = Some a.
Proof.
  unfold num, fkey. rewrite FloatAxioms.eqb_spec. unfold SFeqb.
  pose proof (SFcompare_key (Prim2SF x) (Prim2SF x)) as H.
  destruct (SFcompare (Prim2SF x) (Prim2SF x)) as [[]|]; split; intros G;
    try discriminate; try reflexivity.
  - destruct H as (a & Ha & _). eauto.
  - destruct H as (a & b & Ha & Hb & Hlt). rewrite Ha in Hb. inversion Hb; subst.
    destruct b as [[? ?] ?]. simpl in Hlt. lia.
  - destruct H as (a & b & Ha & Hb & Hlt). rewrite Ha in Hb. inversion Hb; subst.
    destruct b as [[? ?] ?]. simpl in Hlt. lia.
  - destruct G as (a & Ha). destruct H; congruence.
Qed.

Ltac keys :=
  repeat match goal with
  | H : lt _ _ |- _ => apply lt_key in H; destruct H as (? & ? & ? & ? & ?)
  | H : le _ _ |- _ => apply le_key in H; destruct H as (? & ? & ? & ? & ?)
  | H : num _ |- _ => apply num_key in H; destruct H as (? & ?)
  end;
  repeat match goal with
  | H : fkey ?x = Some _, H' : fkey ?x = Some _ |- _ =>
      rewrite H in H'; inversion H'; subst; clear H'
  end.

Ltac lex :=
  repeat match goal with
  | a : (Z * Z * Z)%type |- _ => destruct a as [[? ?] ?]
  end;
  unfold lex_lt in *;
  repeat match goal with
  | H : _ \/ (_, _, _) = (_, _, _) |- _ => destruct H as [H|H]; [|inversion H; subst; clear H]
  end;
  try lia.

Lemma le_num_l x y : le x y -> num x.
Proof. intros H. keys. apply num_key. eauto. Qed.

Lemma le_num_r x y : le x y -> num y.
Proof. intros H. keys. apply num_key. eauto. Qed.

Lemma le_refl x : num x -> le x x.
Proof. intros H. keys. apply le_key. eauto 6. Qed.

Lemma le_trans x y z : le x y -> le y z -> le x z.
Proof.
  intros H1 H2. keys. apply le_key. eexists _, _. split; [eassumption|split; [eassumption|]].
  lex; first [left; lia | right; reflexivity].
Qed.

Lemma lt_le x y : lt x y -> le x y.
Proof. intros H. keys. apply le_key. eauto 6. Qed.

Lemma lt_le_trans x y z : lt x y -> le y z -> lt x z.
Proof.
  intros H1 H2. keys. apply lt_key. eexists _, _. split; [eassumption|split; [eassumption|]].
  lex.
Qed.

Lemma le_lt_trans x y z : le x y -> lt y z -> lt x z.
Proof.
  intros H1 H2. keys. apply lt_key. eexists _, _. split; [eassumption|split; [eassumption|]].
  lex.
Qed.

Lemma lt_irrefl x : ~ lt x x.
Proof. intros H. keys. lex. Qed.

Lemma lt_not_le x y : lt x y -> ~ le y x.
Proof. intros H1 H2. keys. lex. Qed.

(** On numbers the order is total: a failed [<?] test means [>=]. *)
Lemma not_lt_le x y : num x -> num y -> (x <? y)%float = false -> le y x.
Proof.
  intros Hx Hy Hlt. keys. apply le_key. eexists _, _. split; [eassumption|split; [eassumption|]].
  match goal with
  | |- lex_lt ?b ?a \/ _ =>
      assert (Hcases : lex_lt a b \/ a = b \/ lex_lt b a)
        by (destruct a as [[? ?] ?], b as [[? ?] ?]; simpl;
            match goal with
            | |- _ \/ (?p, ?q, ?r) = (?p', ?q', ?r') \/ _ =>
                destruct (Z.lt_total p p') as [?|[?|?]];
                destruct (Z.lt_total q q') as [?|[?|?]];
                destruct (Z.lt_total r r') as [?|[?|?]]; subst; auto; lia
            end)
  end.
  destruct Hcases as [Hc|[Hc|Hc]]; auto.
  exfalso. assert (Hl : lt x y) by (apply lt_key; eauto 6).
  unfold lt in Hl. congruence.
Qed.

(** Two values that are [<=] each other behave alike on the left of [<?]. *)
Lemma ltb_equiv_l a b c : le a b -> le b a -> (a <? c)%float = (b <? c)%float.
Proof.
  intros Hab Hba.
  destruct (a <? c)%float eqn:Ha, (b <? c)%float eqn:Hb; try reflexivity.
  - assert (H : lt b c) by (eapply le_lt_trans; [exact Hba|exact Ha]).
    unfold lt in H. congruence.
  - assert (H : lt a c) by (eapply le_lt_trans; [exact Hab|exact Hb]).
    unfold lt in H. congruence.
Qed.

End F64Facts.

(** ** The scoring rules *)

Section Scoring.
Context (os : OS).
Import F64.

(** The map built by [initExtensionRiskMap] is the table of the
    specification. *)
Lemma initExtensionRiskMap_lookup (ext : string) :
  initExtensionRiskMap !! ext =
    if decide (ext ∈ [".zip"; ".tar"; ".png"; ".jpg"; ".jpeg"; ".csv"; ".json"])
    then Some (extension_delta ext) else None.
Proof.
  unfold initExtensionRiskMap, extension_delta. cbv zeta.
  repeat match goal with
  | |- context [insert ?k _ _ !! ext] =>
      rewrite (lookup_insert _ k ext); destruct (decide (k = ext)) as [<-|Hk];
        [reflexivity
        | let He := fresh "He" in
          pose proof (proj2 (String.eqb_neq ext k) (not_eq_sym Hk)) as He;
          rewrite He; clear He; revert Hk]
  end.
  intros. rewrite lookup_empty. case_decide as Hin; [|reflexivity].
  repeat (apply elem_of_cons in Hin as [->|Hin]; [congruence|]).
  inversion Hin.
Qed.

Lemma extension_delta_absent (ext : string) :
  ext ∉ [".zip"; ".tar"; ".png"; ".jpg"; ".jpeg"; ".csv"; ".json"] ->
  extension_delta ext = 0%float.
Proof.
  intros Hin. unfold extension_delta.
  repeat match goal with
  | |- context [String.eqb ext ?k] =>
      destruct (String.eqb_spec ext k) as [->|_];
        [exfalso; apply Hin; set_solver|]
  end.
  reflexivity.
Qed.

Lemma assessExtension_delta (path : string) :
  assessExtension os initExtensionRiskMap path = extension_delta (Ext os path).
Proof.
  unfold assessExtension. rewrite initExtensionRiskMap_lookup.
  case_decide as Hin; [reflexivity|]. symmetry. apply extension_delta_absent, Hin.
Qed.

(** [checkRiskRange] on any binary64 value. *)
Lemma checkRiskRange_above (risk : float) : lt maxRisk risk -> checkRiskRange risk = maxRisk.
Proof. unfold checkRiskRange, lt. intros ->. reflexivity. Qed.

Lemma checkRiskRange_below (risk : float) : lt risk minRisk -> checkRiskRange risk = minRisk.
Proof.
  intros H. unfold checkRiskRange.
  destruct (maxRisk <? risk)%float eqn:Hmax.
  - exfalso. apply (F64Facts.lt_irrefl maxRisk).
    eapply F64Facts.lt_le_trans; [exact Hmax|].
    eapply F64Facts.le_trans; [apply F64Facts.lt_le, H|]. reflexivity.
  - unfold lt in H. rewrite H. reflexivity.
Qed.

Lemma checkRiskRange_within (risk : float) :
  le minRisk risk -> le risk maxRisk -> checkRiskRange risk = risk.
Proof.
  intros Hlo Hhi. unfold checkRiskRange.
  destruct (maxRisk <? risk)%float eqn:Hmax.
  - exfalso. eapply F64Facts.lt_not_le; [exact Hmax|exact Hhi].
  - destruct (risk <? minRisk)%float eqn:Hmin; [|reflexivity].
    exfalso. eapply F64Facts.lt_not_le; [exact Hmin|exact Hlo].
Qed.

(** The sums the scoring can produce are few; on each of them the clamped
    value is within bounds. *)
Lemma fullRisk_in_range (now : Z) (path : string) (info : FileInfo) :
  risk_in_range
    (checkRiskRange
       (assessFileRisk os initExtensionRiskMap now path info + assessDirNameLength path)%float).
Proof.
  unfold assessFileRisk, assessDirNameLength. rewrite assessExtension_delta.
  unfold extension_delta.
  destruct (1000000 <? info_Size info)%Z;
    destruct (Time_After (info_ModTime info) _);
    destruct (String.length path <? 5);
    destruct (15 <? String.length path);
    repeat match goal with
    | |- context [String.eqb ?a ?b] => destruct (String.eqb a b)
    end;
    split; vm_compute; reflexivity.
Qed.

Lemma assessDirRisk_cases (m : gmap string float) (now : Z) (path : string)
    (info : FileInfo) (err : option error) :
  assessDirRisk os m now path info err =
    if decide (err = None /\ (1000 < info_Size info)%Z)
    then [ {| Path := Abs os path;
              Risk := checkRiskRange
                        (assessFileRisk os m now path info + assessDirNameLength path)%float |} ]
    else [].
Proof.
  unfold assessDirRisk. destruct err as [e|].
  - case_decide as H; [destruct H; discriminate|reflexivity].
  - destruct (Z.ltb_spec 1000 (info_Size info)); case_decide as H'; try reflexivity.
    + exfalso. apply H'. auto.
    + destruct H'. lia.
Qed.

End Scoring.

(** ** The selection of the ten riskiest results *)

Section Selection.
Import F64.

Lemma risk_in_range_num (r : float) : risk_in_range r -> num r.
Proof. intros [H _]. eapply F64Facts.le_num_r, H. Qed.

Lemma appendAll_app (dst src : list FileResult) : appendAll dst src = dst ++ src.
Proof.
  unfold appendAll. revert dst.
  induction src as [|r src IH]; intros dst; simpl.
  - symmetry. apply app_nil_r.
  - rewrite IH, <- app_assoc. reflexivity.
Qed.

(** The scan for the smallest risk, from any point of the loop: either
    nothing below the running minimum was met, or the answer is the first
    position of the smallest risk met. *)
Lemma findSmallestRisk_loop_spec (results : list FileResult) :
  forall (i : nat) (smallestRisk : float) (smallestRiskIndex : nat),
    num smallestRisk ->
    (forall r, r ∈ results -> num (Risk r)) ->
    (findSmallestRisk_loop results i smallestRisk smallestRiskIndex
       = (smallestRisk, smallestRiskIndex) /\
     forall r, r ∈ results -> le smallestRisk (Risk r))
    \/
    (exists k e,
       results !! k = Some e /\
       findSmallestRisk_loop results i smallestRisk smallestRiskIndex = (Risk e, i + k) /\
       lt (Risk e) smallestRisk /\
       (forall r, r ∈ results -> le (Risk e) (Risk r)) /\
       (forall j r, j < k -> results !! j = Some r -> lt (Risk e) (Risk r))).
Proof.
  induction results as [|r results IH]; intros i m idx Hm Hnum; simpl.
  - left. split; [reflexivity|]. intros r Hr. inversion Hr.
  - assert (Hr : num (Risk r)) by (apply Hnum; left).
    assert (Htl : forall r', r' ∈ results -> num (Risk r')) by (intros; apply Hnum; right; assumption).
    destruct (Risk r <? m)%float eqn:Hlt.
    + destruct (IH (S i) (Risk r) i Hr Htl) as [[Heq Hall]|(k & e & Hk & Heq & Hlt' & Hall & Hbefore)].
      * right. exists 0, r. rewrite Heq, Nat.add_0_r.
        repeat split; try assumption; try reflexivity.
        -- intros r' Hr'. apply elem_of_cons in Hr' as [->|Hr']; [apply F64Facts.le_refl, Hr|auto].
        -- intros j r' Hj. lia.
      * right. exists (S k), e. rewrite Heq.
        repeat split; try assumption.
        -- f_equal. lia.
        -- eapply F64Facts.lt_le_trans; [exact Hlt'|apply F64Facts.lt_le, Hlt].
        -- intros r' Hr'. apply elem_of_cons in Hr' as [->|Hr']; [apply F64Facts.lt_le, Hlt'|auto].
        -- intros [|j] r' Hj Hr'; simpl in Hr'.
           ++ inversion Hr'; subst. exact Hlt'.
           ++ apply (Hbefore j); [lia|exact Hr'].
    + assert (Hge : le m (Risk r)) by (apply F64Facts.not_lt_le; assumption).
      destruct (IH (S i) m idx Hm Htl) as [[Heq Hall]|(k & e & Hk & Heq & Hlt' & Hall & Hbefore)].
      * left. split; [exact Heq|].
        intros r' Hr'. apply elem_of_cons in Hr' as [->|Hr']; auto.
      * right. exists (S k), e. rewrite Heq.
        repeat split; try assumption.
        -- f_equal. lia.
        -- intros r' Hr'. apply elem_of_cons in Hr' as [->|Hr']; [|auto].
           apply F64Facts.lt_le. eapply F64Facts.lt_le_trans; [exact Hlt'|exact Hge].
        -- intros [|j] r' Hj Hr'; simpl in Hr'.
           ++ inversion Hr'; subst. eapply F64Facts.lt_le_trans; [exact Hlt'|exact Hge].
           ++ apply (Hbefore j); [lia|exact Hr'].
Qed.

(** On a non-empty array of risks within bounds, [findSmallestRisk] answers
    the smallest risk and the first position that holds it. *)
Lemma findSmallestRisk_spec (results : list FileResult) :
  results <> [] ->
  (forall r, r ∈ results -> risk_in_range (Risk r)) ->
  exists e,
    results !! snd (findSmallestRisk results) = Some e /\
    le (fst (findSmallestRisk results)) (Risk e) /\
    le (Risk e) (fst (findSmallestRisk results)) /\
    (forall r, r ∈ results -> le (Risk e) (Risk r)) /\
    (forall j r, j < snd (findSmallestRisk results) -> results !! j = Some r ->
                 lt (Risk e) (Risk r)).
Proof.
  intros Hne Hrange. unfold findSmallestRisk.
  assert (Hnum : forall r, r ∈ results -> num (Risk r))
    by (intros r Hr; apply risk_in_range_num, Hrange, Hr).
  destruct (findSmallestRisk_loop_spec results 0 maxRisk 0 eq_refl Hnum)
    as [[Heq Hall]|(k & e & Hk & Heq & Hlt & Hall & Hbefore)]; rewrite Heq; simpl.
  - destruct results as [|e results]; [congruence|]. exists e.
    assert (He : e ∈ e :: results) by left.
    split; [reflexivity|]. split; [apply Hall, He|]. split; [apply Hrange, He|]. split.
    + intros r Hr. eapply F64Facts.le_trans; [apply Hrange, He|apply Hall, Hr].
    + intros j r Hj. lia.
  - exists e. assert (Hn : num (Risk e)) by (apply Hnum; eapply list_elem_of_lookup_2, Hk).
    repeat split; try assumption; apply F64Facts.le_refl, Hn.
Qed.

(** One turn of the loop on a full array: the candidate replaces the first
    result of smallest risk when, and only when, it is strictly riskier. *)
Lemma offer_spec (trimmedResults : list FileResult) (result : FileResult) :
  trimmedResults <> [] ->
  (forall r, r ∈ trimmedResults -> risk_in_range (Risk r)) ->
  exists i e,
    trimmedResults !! i = Some e /\
    (forall r, r ∈ trimmedResults -> le (Risk e) (Risk r)) /\
    (forall j r, j < i -> trimmedResults !! j = Some r -> lt (Risk e) (Risk r)) /\
    offer trimmedResults result =
      if (Risk e <? Risk result)%float then <[i := result]> trimmedResults
      else trimmedResults.
Proof.
  intros Hne Hrange.
  destruct (findSmallestRisk_spec trimmedResults Hne Hrange) as (e & Hi & Hle1 & Hle2 & Hmin & Hfirst).
  exists (snd (findSmallestRisk trimmedResults)), e.
  repeat split; try assumption.
  unfold offer. destruct (findSmallestRisk trimmedResults) as [m i]; simpl in *.
  rewrite (F64Facts.ltb_equiv_l m (Risk e) (Risk result) Hle1 Hle2). reflexivity.
Qed.

Lemma elem_of_insert_inv (l : list FileResult) (i : nat) (x r : FileResult) :
  r ∈ <[i := x]> l -> r = x \/ r ∈ l.
Proof.
  intros Hr. apply list_elem_of_lookup in Hr as [j Hj].
  apply list_lookup_insert_Some in Hj as [(_ & -> & _)|[_ Hj]]; [left; reflexivity|].
  right. eapply list_elem_of_lookup_2, Hj.
Qed.

Lemma offer_inv (kept discarded : list FileResult) (result : FileResult) :
  selection_inv kept discarded ->
  risk_in_range (Risk result) ->
  exists discarded',
    selection_inv (offer kept result) discarded' /\
    offer kept result ++ discarded' ≡ₚ (kept ++ discarded) ++ [result].
Proof.
  intros (Hlen & Hrange & Hord) Hres.
  assert (Hne : kept <> []) by (intros ->; discriminate).
  destruct (offer_spec kept result Hne Hrange) as (i & e & Hi & Hmin & _ & ->).
  assert (He : e ∈ kept) by (eapply list_elem_of_lookup_2, Hi).
  destruct (Risk e <? Risk result)%float eqn:Hlt.
  - exists (e :: discarded). split; [split; [|split]|].
    + rewrite length_insert. exact Hlen.
    + intros r Hr. apply elem_of_insert_inv in Hr as [->|Hr]; auto.
    + intros r d Hr Hd.
      apply elem_of_insert_inv in Hr as [->|Hr]; apply elem_of_cons in Hd as [->|Hd].
      * apply F64Facts.lt_le, Hlt.
      * eapply F64Facts.le_trans; [apply (Hord e d He Hd)|apply F64Facts.lt_le, Hlt].
      * apply Hmin, Hr.
      * apply Hord; assumption.
    + rewrite insert_take_drop by (eapply lookup_lt_Some, Hi).
      rewrite <- (take_drop_middle kept i e Hi) at 3.
      solve_Permutation.
  - exists (result :: discarded). split; [split; [|split]|].
    + exact Hlen.
    + exact Hrange.
    + intros r d Hr Hd. apply elem_of_cons in Hd as [->|Hd]; [|auto].
      eapply F64Facts.le_trans; [|apply Hmin, Hr].
      apply F64Facts.not_lt_le; [apply risk_in_range_num, Hrange, He
                                |apply risk_in_range_num, Hres|exact Hlt].
    + solve_Permutation.
Qed.

Lemma foldl_offer_inv (results kept discarded : list FileResult) :
  selection_inv kept discarded ->
  (forall r, r ∈ results -> risk_in_range (Risk r)) ->
  exists discarded',
    selection_inv (foldl offer kept results) discarded' /\
    foldl offer kept results ++ discarded' ≡ₚ (kept ++ discarded) ++ results.
Proof.
  revert kept discarded.
  induction results as [|r results IH]; intros kept discarded Hinv Hrange; simpl.
  - exists discarded. split; [exact Hinv|]. rewrite app_nil_r. reflexivity.
  - destruct (offer_inv kept discarded r Hinv) as (d1 & Hinv1 & Hperm1);
      [apply Hrange; left|].
    destruct (IH (offer kept r) d1 Hinv1) as (d2 & Hinv2 & Hperm2);
      [intros; apply Hrange; right; assumption|].
    exists d2. split; [exact Hinv2|].
    rewrite Hperm2, Hperm1, <- !app_assoc. reflexivity.
Qed.

(** The first [maxResults] turns of the loop copy the results into the
    array. *)
Lemma trimDownResults_loop_fill (filled rest : list FileResult) :
  length filled = maxResults ->
  trimDownResults_loop (filled ++ rest) 0 (replicate maxResults zeroFileResult)
    = trimDownResults_loop rest maxResults filled.
Proof.
  intros Hlen.
  do 10 (destruct filled as [|? filled]; [discriminate|]).
  destruct filled; [reflexivity|discriminate].
Qed.

(** Every later turn is an [offer]. *)
Lemma trimDownResults_loop_offer (results : list FileResult) :
  forall (i : nat) (trimmedResults : list FileResult),
    maxResults <= i ->
    trimDownResults_loop results i trimmedResults = foldl offer trimmedResults results.
Proof.
  induction results as [|r results IH]; intros i buf Hi; simpl; [reflexivity|].
  destruct (Nat.ltb_spec i maxResults) as [Hlt|_]; [lia|].
  unfold offer at 2. destruct (findSmallestRisk buf) as [m idx].
  destruct (m <? Risk r)%float; apply IH; lia.
Qed.

Lemma trimDownResults_short (results : list FileResult) :
  length results <= maxResults -> trimDownResults results = results.
Proof.
  intros H. unfold trimDownResults.
  destruct (Nat.leb_spec (length results) maxResults); [reflexivity|lia].
Qed.

Lemma trimDownResults_long (results : list FileResult) :
  maxResults < length results ->
  trimDownResults results
    = foldl offer (take maxResults results) (drop maxResults results).
Proof.
  intros H. unfold trimDownResults.
  destruct (Nat.leb_spec (length results) maxResults); [lia|].
  cbv zeta. rewrite <- (take_drop maxResults results) at 1.
  rewrite trimDownResults_loop_fill by (rewrite length_take; lia).
  apply trimDownResults_loop_offer. lia.
Qed.

Lemma offer_length (trimmedResults : list FileResult) (result : FileResult) :
  length (offer trimmedResults result) = length trimmedResults.
Proof.
  unfold offer. destruct (findSmallestRisk trimmedResults) as [m i].
  destruct (m <? Risk result)%float; [apply length_insert|reflexivity].
Qed.

Lemma foldl_offer_length (results trimmedResults : list FileResult) :
  length (foldl offer trimmedResults results) = length trimmedResults.
Proof.
  revert trimmedResults. induction results as [|r results IH]; intros buf; simpl;
    [reflexivity|]. rewrite IH. apply offer_length.
Qed.

(** What [trimDownResults] keeps of more than [maxResults] risks within
    bounds. *)
Lemma trimDownResults_keeps_riskiest (results : list FileResult) :
  maxResults < length results ->
  (forall r, r ∈ results -> risk_in_range (Risk r)) ->
  exists discarded,
    length (trimDownResults results) = maxResults /\
    trimDownResults results ++ discarded ≡ₚ results /\
    (forall r d, r ∈ trimDownResults results -> d ∈ discarded -> le (Risk d) (Risk r)).
Proof.
  intros Hlen Hrange. rewrite trimDownResults_long by exact Hlen.
  assert (Hsub : forall r, r ∈ take maxResults results \/ r ∈ drop maxResults results ->
                           r ∈ results)
    by (intros r Hr; rewrite <- (take_drop maxResults results); apply elem_of_app, Hr).
  destruct (foldl_offer_inv (drop maxResults results) (take maxResults results) [])
    as (discarded & (Hl & _ & Hord) & Hperm).
  - split; [rewrite length_take; lia|]. split.
    + intros r Hr. apply Hrange, Hsub. left. exact Hr.
    + intros r d _ Hd. inversion Hd.
  - intros r Hr. apply Hrange, Hsub. right. exact Hr.
  - exists discarded. split; [exact Hl|]. split; [|exact Hord].
    rewrite Hperm, app_nil_r, take_drop. reflexivity.
Qed.

End Selection.

(** ** The walk *)

Section Walking.
Context (os : OS).
Import F64.

Lemma walkFn_file (v : Vars) (e : WalkEntry) :
  is_file e ->
  walkFn os v e =
    Done {| extensionRiskMap := extensionRiskMap v;
            finalResult := finalResult v;
            currentResults := currentResults v ++ score os (extensionRiskMap v) e |}.
Proof.
  intros (info & Hinfo & Hdir). unfold walkFn, score. rewrite Hinfo, Hdir.
  rewrite appendAll_app. reflexivity.
Qed.

Lemma walkFn_dir (v : Vars) (e : WalkEntry) (info : FileInfo) :
  we_info e = Some info -> info_IsDir info = true -> walkFn os v e = Done (flush v).
Proof. intros Hinfo Hdir. unfold walkFn. rewrite Hinfo, Hdir. reflexivity. Qed.

(** An error that comes with a file description is passed over. *)
Lemma walkFn_error_file (v : Vars) (e : WalkEntry) (info : FileInfo) (err : error) :
  we_info e = Some info -> info_IsDir info = false -> we_err e = Some err ->
  walkFn os v e = Done v.
Proof.
  intros Hinfo Hdir Herr. unfold walkFn, assessDirRisk. rewrite Hinfo, Hdir, Herr.
  destruct v; reflexivity.
Qed.

Lemma Walk_files (entries : list WalkEntry) :
  forall v : Vars,
    Forall is_file entries ->
    Walk os v entries =
      Done {| extensionRiskMap := extensionRiskMap v;
              finalResult := finalResult v;
              currentResults := currentResults v ++ scores os (extensionRiskMap v) entries |}.
Proof.
  induction entries as [|e entries IH]; intros v Hfiles; simpl.
  - unfold scores. simpl. rewrite app_nil_r. destruct v; reflexivity.
  - inversion Hfiles as [|? ? He Htl]; subst.
    rewrite (walkFn_file v e He). simpl. rewrite (IH _ Htl). simpl.
    unfold scores. simpl. rewrite <- app_assoc. reflexivity.
Qed.

Lemma walkFn_extensionRiskMap (v v' : Vars) (e : WalkEntry) :
  walkFn os v e = Done v' -> extensionRiskMap v' = extensionRiskMap v.
Proof.
  unfold walkFn. destruct (we_info e) as [info|]; [|discriminate].
  destruct (info_IsDir info); intros H; inversion H; reflexivity.
Qed.

Lemma Walk_extensionRiskMap (entries : list WalkEntry) :
  forall v v' : Vars, Walk os v entries = Done v' -> extensionRiskMap v' = extensionRiskMap v.
Proof.
  induction entries as [|e entries IH]; intros v v' H; simpl in H.
  - inversion H. reflexivity.
  - destruct (walkFn os v e) as [v1|] eqn:He; [|discriminate]. simpl in H.
    rewrite (IH _ _ H). eapply walkFn_extensionRiskMap, He.
Qed.

(** A result of [trimDownResults] is one of its arguments. *)
Lemma elem_of_offer (kept : list FileResult) (result r : FileResult) :
  r ∈ offer kept result -> r = result \/ r ∈ kept.
Proof.
  unfold offer. destruct (findSmallestRisk kept) as [m i].
  destruct (m <? Risk result)%float; [apply elem_of_insert_inv|auto].
Qed.

Lemma elem_of_foldl_offer (results : list FileResult) :
  forall (kept : list FileResult) (r : FileResult),
    r ∈ foldl offer kept results -> r ∈ kept \/ r ∈ results.
Proof.
  induction results as [|x results IH]; intros kept r Hr; simpl in Hr; [auto|].
  apply IH in Hr as [Hr|Hr].
  - apply elem_of_offer in Hr as [->|Hr]; [right; left|left; exact Hr].
  - right; right; exact Hr.
Qed.

Lemma elem_of_trimDownResults (results : list FileResult) (r : FileResult) :
  r ∈ trimDownResults results -> r ∈ results.
Proof.
  destruct (Nat.le_gt_cases (length results) maxResults) as [H|H].
  - rewrite trimDownResults_short by exact H. auto.
  - rewrite trimDownResults_long by exact H. intros Hr.
    rewrite <- (take_drop maxResults results). apply elem_of_app.
    apply elem_of_foldl_offer, Hr.
Qed.

(** Every result held while walking was produced by [assessDirRisk] from a
    file entry met so far. *)
Lemma walkFn_scored_from (all : list WalkEntry) (v v' : Vars) (e : WalkEntry) :
  e ∈ all ->
  (forall r, r ∈ Results (finalResult v) ++ currentResults v ->
             scored_from os (extensionRiskMap v) all r) ->
  walkFn os v e = Done v' ->
  forall r, r ∈ Results (finalResult v') ++ currentResults v' ->
            scored_from os (extensionRiskMap v') all r.
Proof.
  intros He Hinv. unfold walkFn. destruct (we_info e) as [info|] eqn:Hinfo; [|discriminate].
  destruct (info_IsDir info) eqn:Hdir; intros H; inversion H; subst; clear H; simpl; intros r Hr.
  - rewrite app_nil_r, appendAll_app in Hr. apply Hinv.
    apply elem_of_app in Hr as [Hr|Hr]; apply elem_of_app; [left; exact Hr|right].
    apply elem_of_trimDownResults, Hr.
  - rewrite appendAll_app, app_assoc in Hr. apply elem_of_app in Hr as [Hr|Hr]; [auto|].
    exists e, info. auto.
Qed.

Lemma Walk_scored_from (all entries : list WalkEntry) :
  forall v v' : Vars,
    (forall e, e ∈ entries -> e ∈ all) ->
    (forall r, r ∈ Results (finalResult v) ++ currentResults v ->
               scored_from os (extensionRiskMap v) all r) ->
    Walk os v entries = Done v' ->
    forall r, r ∈ Results (finalResult v') ++ currentResults v' ->
              scored_from os (extensionRiskMap v') all r.
Proof.
  induction entries as [|e entries IH]; intros v v' Hsub Hinv H; simpl in H.
  - inversion H; subst. exact Hinv.
  - destruct (walkFn os v e) as [v1|] eqn:He; [|discriminate]. simpl in H.
    eapply (IH v1 v'); [intros; apply Hsub; right; assumption| |exact H].
    eapply walkFn_scored_from; [apply Hsub; left|exact Hinv|exact He].
Qed.

Lemma scan_scored_from (m : gmap string float) (rootDir : string)
    (entries : list WalkEntry) (d : DirResult) (r : FileResult) :
  scan os m rootDir entries = Done d ->
  r ∈ Results d ->
  scored_from os m entries r.
Proof.
  unfold scan. intros H Hr.
  destruct (Walk os _ entries) as [v|] eqn:Hw; [|discriminate]. simpl in H.
  inversion H; subst; clear H. simpl in Hr. rewrite appendAll_app in Hr.
  pose proof (Walk_extensionRiskMap _ _ _ Hw) as Hm. simpl in Hm. rewrite <- Hm.
  eapply (Walk_scored_from entries entries _ v); [auto| |exact Hw|].
  - simpl. intros r' Hr'. inversion Hr'.
  - apply elem_of_app in Hr as [Hr|Hr]; apply elem_of_app; [left; exact Hr|right].
    apply elem_of_trimDownResults, Hr.
Qed.

(** The walk function looks at nothing of an entry but its path, the
    clock, whether there was an error, and the size, modification time and
    kind of the file. *)
Lemma walkFn_same_entry (v : Vars) (e1 e2 : WalkEntry) :
  same_entry e1 e2 -> walkFn os v e1 = walkFn os v e2.
Proof.
  intros (Hpath & Hnow & Herr & Hinfo). unfold walkFn.
  destruct (we_info e1) as [i1|], (we_info e2) as [i2|]; try contradiction; [|reflexivity].
  destruct Hinfo as (Hsize & Hmtime & Hdir). rewrite Hdir.
  destruct (info_IsDir i2); [reflexivity|].
  do 2 f_equal. rewrite !assessDirRisk_cases. rewrite Hpath, Hnow.
  unfold assessFileRisk. rewrite Hsize, Hmtime.
  repeat case_decide; try reflexivity; exfalso; intuition congruence.
Qed.

Lemma Walk_same_entry (entries1 entries2 : list WalkEntry) :
  Forall2 same_entry entries1 entries2 ->
  forall v : Vars, Walk os v entries1 = Walk os v entries2.
Proof.
  induction 1 as [|e1 e2 es1 es2 He _ IH]; intros v; simpl; [reflexivity|].
  rewrite (walkFn_same_entry v e1 e2 He).
  destruct (walkFn os v e2); simpl; [apply IH|reflexivity].
Qed.

End Walking.

(** ** The array of [trimDownResults], turn by turn *)

Section Turns.
Import F64.

Lemma array_after_foldl (results : list FileResult) (n : nat) :
  maxResults <= n -> n <= length results ->
  array_after results n
    = foldl offer (take maxResults results) (drop maxResults (take n results)).
Proof.
  intros Hn Hlen. unfold array_after.
  rewrite <- (take_drop maxResults (take n results)) at 1.
  rewrite trimDownResults_loop_fill by (rewrite !length_take; lia).
  rewrite trimDownResults_loop_offer by lia.
  rewrite take_take, Nat.min_l by exact Hn. reflexivity.
Qed.

Lemma array_after_step (results : list FileResult) (n : nat) (result : FileResult) :
  maxResults <= n -> results !! n = Some result ->
  array_after results (S n) = offer (array_after results n) result.
Proof.
  intros Hn Hres. pose proof (lookup_lt_Some _ _ _ Hres) as Hlt.
  rewrite !array_after_foldl by lia.
  rewrite (take_S_r _ _ _ Hres), drop_app_le by (rewrite length_take; lia).
  rewrite foldl_app. reflexivity.
Qed.

Lemma array_after_all (results : list FileResult) :
  maxResults < length results ->
  array_after results (length results) = trimDownResults results.
Proof.
  intros H. rewrite trimDownResults_long by exact H.
  rewrite array_after_foldl by lia.
  rewrite (take_ge results (length results)) by lia. reflexivity.
Qed.

Lemma array_after_inv (results : list FileResult) (n : nat) :
  maxResults <= n -> n <= length results ->
  (forall r, r ∈ results -> risk_in_range (Risk r)) ->
  exists discarded, selection_inv (array_after results n) discarded.
Proof.
  intros Hn Hlen Hrange. rewrite array_after_foldl by lia.
  assert (Hsub : forall r, r ∈ take n results -> r ∈ results)
    by (intros r Hr; rewrite <- (take_drop n results); apply elem_of_app; left; exact Hr).
  assert (Hsub' : forall r, r ∈ take maxResults (take n results) \/
                            r ∈ drop maxResults (take n results) -> r ∈ results)
    by (intros r Hr; apply Hsub; rewrite <- (take_drop maxResults (take n results));
        apply elem_of_app, Hr).
  rewrite take_take, Nat.min_l in Hsub' by exact Hn.
  destruct (foldl_offer_inv (drop maxResults (take n results)) (take maxResults results) [])
    as (discarded & Hinv & _).
  - split; [rewrite length_take; lia|]. split.
    + intros r Hr. apply Hrange, Hsub'. left. exact Hr.
    + intros r d _ Hd. inversion Hd.
  - intros r Hr. apply Hrange, Hsub'. right. exact Hr.
  - exists discarded. exact Hinv.
Qed.

(** The tie-break of the code, at every turn past the tenth: the result
    that may be replaced is the first of smallest risk in the array. *)
Lemma array_after_turn (results : list FileResult) (n : nat) (result : FileResult) :
  (forall r, r ∈ results -> risk_in_range (Risk r)) ->
  maxResults <= n -> results !! n = Some result ->
  exists i e,
    array_after results n !! i = Some e /\
    (forall r, r ∈ array_after results n -> le (Risk e) (Risk r)) /\
    (forall j r, j < i -> array_after results n !! j = Some r -> lt (Risk e) (Risk r)) /\
    array_after results (S n) =
      if (Risk e <? Risk result)%float then <[i := result]> (array_after results n)
      else array_after results n.
Proof.
  intros Hrange Hn Hres. pose proof (lookup_lt_Some _ _ _ Hres) as Hlt.
  destruct (array_after_inv results n Hn) as (discarded & Hlen & Hr & _); [lia|exact Hrange|].
  rewrite (array_after_step results n result Hn Hres).
  apply offer_spec; [|exact Hr].
  intros Heq. rewrite Heq in Hlen. discriminate.
Qed.

End Turns.

(** ** Reading the command line *)

Section CommandLine.

Lemma index_elem_of (key : string) (args : list string) (i : nat) :
  key <> EmptyString -> String.eqb key (index args i) = true -> key ∈ args.
Proof.
  intros Hne Heq. apply String.eqb_eq in Heq. unfold index in Heq.
  destruct (args !! i) as [a|] eqn:Ha; simpl in Heq; [|congruence].
  subst. eapply list_elem_of_lookup_2, Ha.
Qed.

(** One turn of the loop. *)
Lemma readCommandLineArgs_loop_S (fuel : nat) (args : list string) (i : nat)
    (result : gmap string string) :
  readCommandLineArgs_loop (S fuel) args i result =
    if i <? length args then
      let '(result, i) :=
        if String.eqb dirArg (index args i) && (i + 1 <? length args)
        then (insert dirArg (index args (i + 1)) result, i + 1)
        else (result, i) in
      let '(result, i) :=
        if String.eqb outArg (index args i) && (i + 1 <? length args)
        then (insert outArg (index args (i + 1)) result, i + 1)
        else (result, i) in
      readCommandLineArgs_loop fuel args (i + 1) result
    else result.
Proof. reflexivity. Qed.

(** The loop writes a flag's key only where it reads the flag. *)
Lemma readCommandLineArgs_loop_absent (key : string) (args : list string) :
  (key = dirArg \/ key = outArg) ->
  key ∉ args ->
  forall (fuel i : nat) (result : gmap string string),
    result !! key = None ->
    readCommandLineArgs_loop fuel args i result !! key = None.
Proof.
  intros Hkey Habs. induction fuel as [|fuel IH]; intros i result Hres; [exact Hres|].
  rewrite readCommandLineArgs_loop_S.
  destruct (i <? length args); [|exact Hres].
  destruct (String.eqb dirArg (index args i) && (i + 1 <? length args)) eqn:Hd;
    cbv beta iota zeta.
  - apply andb_true_iff in Hd as [Hd _].
    assert (Hin : dirArg ∈ args) by (eapply index_elem_of; [discriminate|exact Hd]).
    assert (Hk : key = outArg) by (destruct Hkey as [-> | ->]; [contradiction|reflexivity]).
    destruct (String.eqb outArg (index args (i + 1)) && (i + 1 + 1 <? length args)) eqn:Ho;
      cbv beta iota zeta.
    + apply andb_true_iff in Ho as [Ho _]. exfalso. apply Habs. rewrite Hk.
      eapply index_elem_of; [discriminate|exact Ho].
    + apply IH. rewrite lookup_insert_ne; [exact Hres|]. rewrite Hk. discriminate.
  - destruct (String.eqb outArg (index args i) && (i + 1 <? length args)) eqn:Ho;
      cbv beta iota zeta.
    + apply andb_true_iff in Ho as [Ho _].
      assert (Hin : outArg ∈ args) by (eapply index_elem_of; [discriminate|exact Ho]).
      assert (Hk : key = dirArg) by (destruct Hkey as [-> | ->]; [reflexivity|contradiction]).
      apply IH. rewrite lookup_insert_ne; [exact Hres|]. rewrite Hk. discriminate.
    + apply IH, Hres.
Qed.

(** More turns than arguments change nothing: the loop has stopped. *)
Lemma readCommandLineArgs_loop_done (args : list string) :
  forall (fuel i : nat) (result : gmap string string),
    length args <= i -> readCommandLineArgs_loop fuel args i result = result.
Proof.
  intros [|fuel] i result Hi; [reflexivity|].
  rewrite readCommandLineArgs_loop_S.
  destruct (Nat.ltb_spec i (length args)); [lia|reflexivity].
Qed.

Lemma readCommandLineArgs_loop_fuel (args : list string) :
  forall (fuel extra i : nat) (result : gmap string string),
    length args <= i + fuel ->
    readCommandLineArgs_loop (fuel + extra) args i result
      = readCommandLineArgs_loop fuel args i result.
Proof.
  induction fuel as [|fuel IH]; intros extra i result Hi.
  - simpl. rewrite readCommandLineArgs_loop_done by lia. reflexivity.
  - change (S fuel + extra) with (S (fuel + extra)).
    rewrite !readCommandLineArgs_loop_S.
    destruct (i <? length args); [|reflexivity].
    destruct (String.eqb dirArg (index args i) && (i + 1 <? length args));
      cbv beta iota zeta;
      destruct (String.eqb outArg (index args _) && (_ <? length args));
      cbv beta iota zeta; apply IH; lia.
Qed.

End CommandLine.

(** ** The loop against a reading that consumes each value *)

Section Consuming.

Lemma parse_consuming_one (flag : string) (result : gmap string string) :
  parse_consuming [flag] result = result.
Proof. reflexivity. Qed.

Lemma parse_consuming_two (flag value : string) (rest : list string)
    (result : gmap string string) :
  parse_consuming (flag :: value :: rest) result =
    if String.eqb dirArg flag || String.eqb outArg flag
    then parse_consuming rest (insert flag value result)
    else parse_consuming (value :: rest) result.
Proof. reflexivity. Qed.

Lemma index_lookup (args : list string) (i : nat) (a : string) :
  args !! i = Some a -> index args i = a.
Proof. unfold index. intros ->. reflexivity. Qed.

(** Unless [--out] stands right after a [--dir], the loop reads the
    arguments as [parse_consuming] does. *)
Lemma readCommandLineArgs_loop_consuming (args : list string) :
  (forall i, args !! i = Some dirArg -> args !! S i <> Some outArg) ->
  forall (fuel i : nat) (result : gmap string string),
    length args <= i + fuel ->
    readCommandLineArgs_loop fuel args i result = parse_consuming (drop i args) result.
Proof.
  intros Hno. induction fuel as [|fuel IH]; intros i result Hlen.
  - rewrite drop_ge by lia. reflexivity.
  - rewrite readCommandLineArgs_loop_S.
    destruct (Nat.ltb_spec i (length args)) as [Hi|Hi]; [|rewrite drop_ge by lia; reflexivity].
    destruct (lookup_lt_is_Some_2 args i Hi) as [a Ha].
    rewrite (drop_S _ _ _ Ha), (index_lookup _ _ _ Ha), Nat.add_1_r.
    destruct (S i <? length args) eqn:Hb.
    + assert (Hi' : S i < length args) by (apply Nat.ltb_lt, Hb).
      destruct (lookup_lt_is_Some_2 args (S i) Hi') as [v Hv].
      rewrite (drop_S _ _ _ Hv), parse_consuming_two, !andb_true_r.
      destruct (String.eqb_spec dirArg a) as [<-|Hd]; cbv beta iota zeta;
        rewrite ?Nat.add_1_r, ?Hb, ?andb_true_r.
      * rewrite (index_lookup _ _ _ Hv).
        destruct (String.eqb_spec outArg v) as [<-|Ho]; [exfalso; apply (Hno i Ha), Hv|].
        rewrite andb_false_l. cbv beta iota zeta. rewrite Nat.add_1_r.
        apply IH. lia.
      * rewrite (index_lookup _ _ _ Ha).
        destruct (String.eqb_spec outArg a) as [<-|Ho]; cbv beta iota zeta;
          rewrite ?Nat.add_1_r.
        -- rewrite (index_lookup _ _ _ Hv). apply IH. lia.
        -- rewrite (IH (S i) result) by lia. rewrite (drop_S _ _ _ Hv). reflexivity.
    + assert (Hi' : length args <= S i) by (apply Nat.ltb_ge, Hb).
      rewrite !andb_false_r. cbv beta iota zeta.
      rewrite ?Nat.add_1_r, (index_lookup _ _ _ Ha), Hb, andb_false_r. cbv beta iota zeta.
      rewrite ?Nat.add_1_r.
      rewrite (IH (S i) result) by lia. rewrite !drop_ge by lia. reflexivity.
Qed.

Lemma readCommandLineArgs_consuming (prog : string) (args : list string) :
  (forall i, args !! i = Some dirArg -> args !! S i <> Some outArg) ->
  readCommandLineArgs (prog :: args) = Done (parse_consuming args empty).
Proof.
  intros Hno. unfold readCommandLineArgs. f_equal.
  apply (readCommandLineArgs_loop_consuming args Hno (length args) 0 empty). lia.
Qed.

End Consuming.

(** ** The properties of the specification *)

Section Claims.
Context (os : OS).
Import F64.

Lemma scores_length (m : gmap string float) (entries : list WalkEntry) :
  Forall is_file entries ->
  length (scores os m entries) = length (List.filter qualifying entries).
Proof.
  induction 1 as [|e entries (info & Hinfo & Hdir) _ IH]; [reflexivity|].
  unfold scores in *. simpl. rewrite length_app, IH.
  unfold score, qualifying. rewrite Hinfo, assessDirRisk_cases.
  destruct (we_err e) as [err|].
  - case_decide as H; [destruct H; discriminate|reflexivity].
  - destruct (Z.ltb_spec 1000 (info_Size info)); case_decide as H'; simpl; try reflexivity.
    + exfalso. apply H'. auto.
    + destruct H'. lia.
Qed.

Lemma assessDirRisk_in_range (now : Z) (path : string) (info : FileInfo)
    (err : option error) (r : FileResult) :
  r ∈ assessDirRisk os initExtensionRiskMap now path info err -> risk_in_range (Risk r).
Proof.
  rewrite assessDirRisk_cases. case_decide; intros Hr; [|inversion Hr].
  apply list_elem_of_singleton in Hr as ->. apply fullRisk_in_range.
Qed.

Lemma scores_in_range (entries : list WalkEntry) (r : FileResult) :
  r ∈ scores os initExtensionRiskMap entries -> risk_in_range (Risk r).
Proof.
  unfold scores. induction entries as [|e entries IH]; simpl; intros Hr; [inversion Hr|].
  apply elem_of_app in Hr as [Hr|Hr]; [|apply IH, Hr].
  unfold score in Hr. destruct (we_info e) as [info|]; [|inversion Hr].
  eapply assessDirRisk_in_range, Hr.
Qed.

(** Every result a scan delivers has its risk within [0.0, 1.0]. *)
Lemma scan_risks_in_range (rootDir : string) (entries : list WalkEntry)
    (d : DirResult) (r : FileResult) :
  scan os initExtensionRiskMap rootDir entries = Done d ->
  r ∈ Results d -> risk_in_range (Risk r).
Proof.
  intros Hscan Hr.
  destruct (scan_scored_from os _ _ _ _ _ Hscan Hr) as (e & info & _ & _ & _ & Hin).
  eapply assessDirRisk_in_range, Hin.
Qed.

Lemma walkFn_nil_info (v : Vars) (e : WalkEntry) :
  we_info e = None ->
  walkFn os v e = Panic "invalid memory address or nil pointer dereference".
Proof. unfold walkFn. intros ->. reflexivity. Qed.

(** C3.  The risk of every [FileResult] that [assessDirRisk] builds is the
    clamped sum of the file risk and the directory-name-length delta, and
    lies within [0.0, 1.0]. *)
Theorem risk_clamped_to_bounds (now : Z) (path : string) (info : FileInfo)
    (err : option error) (r : FileResult) :
  r ∈ assessDirRisk os initExtensionRiskMap now path info err ->
  let fullRisk :=
    (assessFileRisk os initExtensionRiskMap now path info + assessDirNameLength path)%float in
  Risk r = checkRiskRange fullRisk /\
  le 0.0 (Risk r) /\ le (Risk r) 1.0 /\
  (lt 1.0 fullRisk -> Risk r = 1.0%float) /\
  (lt fullRisk 0.0 -> Risk r = 0.0%float) /\
  (le 0.0 fullRisk -> le fullRisk 1.0 -> Risk r = fullRisk).
Proof.
  intros Hr fullRisk. rewrite assessDirRisk_cases in Hr.
  case_decide; [|inversion Hr]. apply list_elem_of_singleton in Hr as ->. simpl.
  fold fullRisk. split; [reflexivity|].
  destruct (fullRisk_in_range os now path info) as [Hlo Hhi]. fold fullRisk in Hlo, Hhi.
  split; [exact Hlo|]. split; [exact Hhi|]. split; [|split].
  - apply checkRiskRange_above.
  - apply checkRiskRange_below.
  - apply checkRiskRange_within.
Qed.

(** C4.  An entry of at most 1000 bytes yields no [FileResult]: scoring it
    gives nothing, the walk function leaves the variables as they are when
    it is a file, and every result a scan delivers stems from a file entry
    of more than 1000 bytes. *)
Theorem small_files_leave_no_result (m : gmap string float) (e : WalkEntry)
    (info : FileInfo) :
  we_info e = Some info ->
  (info_Size info <= 1000)%Z ->
  assessDirRisk os m (we_now e) (we_path e) info (we_err e) = [] /\
  score os m e = [] /\
  (info_IsDir info = false -> forall v, walkFn os v e = Done v) /\
  (forall rootDir entries d r,
     scan os m rootDir entries = Done d -> r ∈ Results d ->
     exists e' info',
       e' ∈ entries /\ we_info e' = Some info' /\ info_IsDir info' = false /\
       we_err e' = None /\ (1000 < info_Size info')%Z /\
       Path r = Abs os (we_path e')).
Proof.
  intros Hinfo Hsize.
  assert (Hnone : forall m', assessDirRisk os m' (we_now e) (we_path e) info (we_err e) = []).
  { intros m'. rewrite assessDirRisk_cases. case_decide as H; [destruct H; lia|reflexivity]. }
  split; [apply Hnone|]. split; [unfold score; rewrite Hinfo; apply Hnone|]. split.
  - intros Hdir v. unfold walkFn. rewrite Hinfo, Hdir, Hnone. destruct v; reflexivity.
  - intros rootDir entries d r Hscan Hr.
    destruct (scan_scored_from os _ _ _ _ _ Hscan Hr) as (e' & info' & He' & Hi' & Hd' & Hin).
    rewrite assessDirRisk_cases in Hin. case_decide as H; [|inversion Hin].
    destruct H as [Herr Hbig]. apply list_elem_of_singleton in Hin as ->.
    exists e', info'. auto 10.
Qed.

(** C5.  The table holds exactly the seven tabulated deltas; an extension
    that is not one of its keys, as it is spelled, is absent and counts for
    0.0; and walking never changes the table. *)
Theorem extension_deltas :
  initExtensionRiskMap !! ".zip" = Some 0.15%float /\
  initExtensionRiskMap !! ".tar" = Some 0.15%float /\
  initExtensionRiskMap !! ".png" = Some (-0.20)%float /\
  initExtensionRiskMap !! ".jpg" = Some (-0.20)%float /\
  initExtensionRiskMap !! ".jpeg" = Some (-0.20)%float /\
  initExtensionRiskMap !! ".csv" = Some 0.75%float /\
  initExtensionRiskMap !! ".json" = Some 0.75%float /\
  (forall ext,
     ext ∉ [".zip"; ".tar"; ".png"; ".jpg"; ".jpeg"; ".csv"; ".json"] ->
     initExtensionRiskMap !! ext = None) /\
  (forall path risk,
     initExtensionRiskMap !! Ext os path = Some risk ->
     assessExtension os initExtensionRiskMap path = risk) /\
  (forall path,
     initExtensionRiskMap !! Ext os path = None ->
     assessExtension os initExtensionRiskMap path = 0.0%float) /\
  (forall v entries v',
     Walk os v entries = Done v' -> extensionRiskMap v' = extensionRiskMap v).
Proof.
  repeat (split; [reflexivity|]).
  split; [|split; [|split]].
  - intros ext Habs. rewrite initExtensionRiskMap_lookup. case_decide; [contradiction|reflexivity].
  - intros path risk H. unfold assessExtension. rewrite H. reflexivity.
  - intros path H. unfold assessExtension. rewrite H. reflexivity.
  - intros v entries v'. apply Walk_extensionRiskMap.
Qed.

(** C6.  A file with extension [.csv], of 2,000,000 bytes, modified one hour
    before now, under a path of 20 bytes: the deltas are 0.25, 0.75, 0.20 and
    -0.10; their binary64 sum is 1.0999999999999999, within 2^-52 of 1.10 and
    above 1.0; the stored risk is exactly 1.0. *)
Theorem big_csv_scenario (now : Z) (path : string) (info : FileInfo) :
  String.length path = 20 ->
  Ext os path = ".csv" ->
  info_Size info = 2000000%Z ->
  info_ModTime info = (now - time_Hour)%Z ->
  let fullRisk :=
    (assessFileRisk os initExtensionRiskMap now path info + assessDirNameLength path)%float in
  assessExtension os initExtensionRiskMap path = 0.75%float /\
  assessFileRisk os initExtensionRiskMap now path info = (0.0 + 0.25 + 0.75 + 0.20)%float /\
  assessDirNameLength path = (-0.10)%float /\
  fullRisk = (0.0 + 0.25 + 0.75 + 0.20 + -0.10)%float /\
  fullRisk = 1.0999999999999999%float /\
  (exists q, to_Q fullRisk = Some q /\
             (Qabs (q - (11 # 10)) < (1 # 4503599627370496))%Q) /\
  lt 1.0 fullRisk /\
  assessDirRisk os initExtensionRiskMap now path info None
    = [ {| Path := Abs os path; Risk := 1.0%float |} ].
Proof.
  intros Hlen Hext Hsize Hmtime fullRisk.
  assert (He : assessExtension os initExtensionRiskMap path = 0.75%float)
    by (rewrite assessExtension_delta, Hext; reflexivity).
  assert (Hf : assessFileRisk os initExtensionRiskMap now path info
               = (0.0 + 0.25 + 0.75 + 0.20)%float).
  { unfold assessFileRisk. rewrite He, Hsize, Hmtime.
    change (1000000 <? 2000000)%Z with true. cbv zeta.
    replace (Time_After (now - time_Hour) (Time_Add now (time_Hour * - hoursInWeek))) with true;
      [reflexivity|].
    symmetry. unfold Time_After, Time_Add, time_Hour, hoursInWeek. apply Z.ltb_lt. lia. }
  assert (Hd : assessDirNameLength path = (-0.10)%float)
    by (unfold assessDirNameLength; rewrite Hlen; reflexivity).
  assert (Hfull : fullRisk = (0.0 + 0.25 + 0.75 + 0.20 + -0.10)%float)
    by (unfold fullRisk; rewrite Hf, Hd; reflexivity).
  split; [exact He|]. split; [exact Hf|]. split; [exact Hd|]. split; [exact Hfull|].
  split; [rewrite Hfull; reflexivity|].
  split.
  { rewrite Hfull. exists (4953959590107545 # 4503599627370496)%Q.
    split; vm_compute; reflexivity. }
  split; [rewrite Hfull; reflexivity|].
  rewrite assessDirRisk_cases. case_decide as H; [|exfalso; apply H; split; [reflexivity|lia]].
  fold fullRisk. rewrite Hfull. reflexivity.
Qed.

(** C7.  When [--dir] or [--out] does not occur among the arguments, [main]
    prints its message and returns: it walks nothing and opens no file. *)
Theorem missing_flag_prints_and_returns (env : Env) (prog : string) (args : list string) :
  os_Args env = prog :: args ->
  dirArg ∉ args \/ outArg ∉ args ->
  main os env =
    ([EvPrintln "Both '--dir' and '--out' need to be set. Exiting."], Done tt).
Proof.
  intros Hargs Hmiss. unfold main, readCommandLineArgs. rewrite Hargs.
  destruct Hmiss as [Hmiss|Hmiss].
  - rewrite (readCommandLineArgs_loop_absent dirArg args (or_introl eq_refl) Hmiss);
      [reflexivity|apply lookup_empty].
  - rewrite (readCommandLineArgs_loop_absent outArg args (or_intror eq_refl) Hmiss);
      [|apply lookup_empty].
    destruct (_ !! dirArg); reflexivity.
Qed.

(** C8.  Two scans that meet the same paths with the same sizes and
    modification times, the same kinds of entries and the same failures, at
    the same clock readings, deliver the same results: paths and risks. *)
Theorem scan_deterministic (m : gmap string float) (rootDir : string)
    (entries1 entries2 : list WalkEntry) :
  Forall2 same_entry entries1 entries2 ->
  scan os m rootDir entries1 = scan os m rootDir entries2.
Proof.
  intros H. unfold scan. rewrite (Walk_same_entry os entries1 entries2 H). reflexivity.
Qed.

(** C10.  [trimDownResults] returns a list of at most 10 results as it is,
    and exactly 10 results of a longer one. *)
Theorem trimDownResults_length (results : list FileResult) :
  (length results <= 10 -> trimDownResults results = results) /\
  (10 < length results -> length (trimDownResults results) = 10).
Proof.
  split; intros H.
  - apply trimDownResults_short, H.
  - rewrite (trimDownResults_long results H), foldl_offer_length, length_take.
    unfold maxResults. lia.
Qed.

End Claims.

(** ** The properties on the sample inputs *)

Section Samples.
Import F64 Sample.

(** C2.  An entry whose [Lstat] failed reaches the walk function with a nil
    [info]; the function dereferences it before it looks at the error, so
    the walk, the scan and the program end in a panic, and the files that
    follow are never scored. *)
Theorem failed_lstat_is_fatal :
  walkFn unix start vanished
    = Panic "invalid memory address or nil pointer dereference" /\
  scan unix initExtensionRiskMap "/data" racy_walk
    = Panic "invalid memory address or nil pointer dereference" /\
  main unix racy_env
    = ([], Panic "invalid memory address or nil pointer dereference").
Proof. repeat split; vm_compute; reflexivity. Qed.

(** C3, on the sample file [big.csv]. *)
Lemma risk_clamped_to_bounds_witness :
  le 0.0 (Risk {| Path := "/data/scans1/big.csv"; Risk := 1.0 |}) /\
  le (Risk {| Path := "/data/scans1/big.csv"; Risk := 1.0 |}) 1.0.
Proof.
  destruct (risk_clamped_to_bounds unix now "/data/scans1/big.csv" big_csv_info None
              {| Path := "/data/scans1/big.csv"; Risk := 1.0 |})
    as (_ & Hlo & Hhi & _).
  - apply (list_elem_of_lookup_2 _ 0). vm_compute. reflexivity.
  - exact (conj Hlo Hhi).
Defined.

(** C4, on the sample file [img.png] of 500 bytes. *)
Lemma small_files_leave_no_result_witness :
  score unix initExtensionRiskMap img_png = [] /\
  walkFn unix start img_png = Done start.
Proof.
  destruct (small_files_leave_no_result unix initExtensionRiskMap img_png
              (file "img.png" 500 recent))
    as (_ & Hscore & Hwalk & _).
  - reflexivity.
  - vm_compute. discriminate.
  - exact (conj Hscore (Hwalk eq_refl start)).
Defined.

(** C5, on a path that ends in [.csv] and on one that ends in [.CSV]. *)
Lemma extension_deltas_witness :
  assessExtension unix initExtensionRiskMap "/data/scans1/big.csv" = 0.75%float /\
  assessExtension unix initExtensionRiskMap "/data/scans1/BIG.CSV" = 0.0%float.
Proof.
  destruct (extension_deltas unix) as (_ & _ & _ & _ & _ & _ & _ & _ & Hsome & Hnone & _).
  split.
  - apply Hsome. vm_compute. reflexivity.
  - apply Hnone. vm_compute. reflexivity.
Defined.

(** C6, on the sample file [/data/scans1/big.csv]. *)
Lemma big_csv_scenario_witness :
  assessDirRisk unix initExtensionRiskMap now "/data/scans1/big.csv" big_csv_info None
    = [ {| Path := "/data/scans1/big.csv"; Risk := 1.0%float |} ].
Proof.
  destruct (big_csv_scenario unix now "/data/scans1/big.csv" big_csv_info)
    as (_ & _ & _ & _ & _ & _ & _ & Hresult).
  - reflexivity.
  - reflexivity.
  - reflexivity.
  - reflexivity.
  - exact Hresult.
Defined.

(** C7, on a command line without [--out]. *)
Lemma missing_flag_prints_and_returns_witness :
  main unix (env ["--dir"; "/d"]) =
    ([EvPrintln "Both '--dir' and '--out' need to be set. Exiting."], Done tt).
Proof.
  apply (missing_flag_prints_and_returns unix (env ["--dir"; "/d"]) "riskScan" ["--dir"; "/d"]).
  - reflexivity.
  - right. intros Hin.
    apply elem_of_cons in Hin as [Heq|Hin]; [discriminate|].
    apply elem_of_cons in Hin as [Heq|Hin]; [discriminate|].
    inversion Hin.
Defined.

(** C8, on two views of the twelve sample files. *)
Lemma scan_deterministic_witness :
  scan unix initExtensionRiskMap "/d" twelve
    = scan unix initExtensionRiskMap "/d" twelve_again.
Proof.
  apply scan_deterministic.
  repeat (constructor; [vm_compute; repeat split; auto|]). constructor.
Defined.

(** C9.  On [--dir --out x] the value of [--dir] is read a second time, as
    the flag [--out]: both keys are set, where a reading that consumes the
    value sets [--dir] alone. *)
Theorem dir_value_is_read_as_flag :
  readCommandLineArgs ["riskScan"; "--dir"; "--out"; "x"]
    = Done (readCommandLineArgs_loop 3 ["--dir"; "--out"; "x"] 0 empty) /\
  readCommandLineArgs_loop 3 ["--dir"; "--out"; "x"] 0 empty !! dirArg = Some "--out" /\
  readCommandLineArgs_loop 3 ["--dir"; "--out"; "x"] 0 empty !! outArg = Some "x" /\
  parse_consuming ["--dir"; "--out"; "x"] empty !! dirArg = Some "--out" /\
  parse_consuming ["--dir"; "--out"; "x"] empty !! outArg = None.
Proof. repeat split; vm_compute; reflexivity. Qed.

(** Repeated flags, a flag without a value, and a flag taken as a value. *)
Lemma readCommandLineArgs_samples :
  (exists args, readCommandLineArgs ["riskScan"; "--dir"; "a"; "--dir"; "b"] = Done args /\
                args !! dirArg = Some "b" /\ args !! outArg = None) /\
  (exists args, readCommandLineArgs ["riskScan"; "--dir"; "a"; "--out"] = Done args /\
                args !! dirArg = Some "a" /\ args !! outArg = None) /\
  (exists args, readCommandLineArgs ["riskScan"; "--out"; "--dir"; "x"] = Done args /\
                args !! dirArg = None /\ args !! outArg = Some "--dir").
Proof.
  repeat split; (eexists; split; [reflexivity|]); split; vm_compute; reflexivity.
Qed.

(** A whole run of the program on the twelve sample files. *)
Lemma main_sample_run :
  main unix (env ["--dir"; "/d"; "--out"; "out.json"]) =
    ([ EvOpenFile "out.json" None;
       EvEncode "out.json" {| Dir := "/d"; Results := trimDownResults twelve_results |};
       EvClose "out.json" ], Done tt).
Proof. vm_compute. reflexivity. Qed.

(** C10, on the twelve sample results and on the first three of them. *)
Lemma trimDownResults_length_witness :
  trimDownResults (take 3 twelve_results) = take 3 twelve_results /\
  length (trimDownResults twelve_results) = 10.
Proof.
  split.
  - apply (proj1 (trimDownResults_length (take 3 twelve_results))). vm_compute. lia.
  - apply (proj2 (trimDownResults_length twelve_results)). vm_compute. lia.
Defined.

End Samples.

(** ** More on the selection *)

Section MoreSelection.
Import F64.

(** The scan for the smallest risk on any binary64 values, NaN included:
    the answer is the start value, nothing being below it, or a risk of the
    array below the start value, with its position. *)
Lemma findSmallestRisk_loop_any (results : list FileResult) :
  forall (i : nat) (smallestRisk : float) (smallestRiskIndex : nat),
    (findSmallestRisk_loop results i smallestRisk smallestRiskIndex
       = (smallestRisk, smallestRiskIndex) /\
     forall r, r ∈ results -> (Risk r <? smallestRisk)%float = false)
    \/
    (exists k e,
       results !! k = Some e /\
       findSmallestRisk_loop results i smallestRisk smallestRiskIndex = (Risk e, i + k) /\
       lt (Risk e) smallestRisk).
Proof.
  induction results as [|r results IH]; intros i m idx; simpl.
  - left. split; [reflexivity|]. intros r Hr. inversion Hr.
  - destruct (Risk r <? m)%float eqn:Hlt.
    + right. destruct (IH (S i) (Risk r) i) as [[Heq _]|(k & e & Hk & Heq & Hlt')].
      * exists 0, r. rewrite Heq, Nat.add_0_r. auto.
      * exists (S k), e. rewrite Heq. split; [exact Hk|]. split; [f_equal; lia|].
        eapply F64Facts.lt_le_trans; [exact Hlt'|apply F64Facts.lt_le, Hlt].
    + destruct (IH (S i) m idx) as [[Heq Hall]|(k & e & Hk & Heq & Hlt')].
      * left. split; [exact Heq|].
        intros r' Hr'. apply elem_of_cons in Hr' as [->|Hr']; auto.
      * right. exists (S k), e. rewrite Heq. split; [exact Hk|]. split; [f_equal; lia|exact Hlt'].
Qed.

(** X7.  On a non-empty array of any risks, the position [findSmallestRisk]
    answers lies within the array, so the write at that position in
    [trimDownResults] is in range; and the risk it answers is either
    [maxRisk] with position 0, no risk of the array being below [maxRisk],
    or the risk found at that position, which is below [maxRisk]. *)
Theorem findSmallestRisk_in_bounds (results : list FileResult) :
  results <> [] ->
  snd (findSmallestRisk results) < length results /\
  ((findSmallestRisk results = (maxRisk, 0) /\
    forall r, r ∈ results -> (Risk r <? maxRisk)%float = false)
   \/
   (exists e,
      results !! snd (findSmallestRisk results) = Some e /\
      fst (findSmallestRisk results) = Risk e /\
      lt (Risk e) maxRisk)).
Proof.
  intros Hne. unfold findSmallestRisk.
  destruct (findSmallestRisk_loop_any results 0 maxRisk 0)
    as [[Heq Hall]|(k & e & Hk & Heq & Hlt)]; rewrite Heq; simpl.
  - split; [destruct results; [congruence|simpl; lia]|]. left. auto.
  - split; [eapply lookup_lt_Some, Hk|]. right. exists e. auto.
Qed.

(** One turn on a full or empty array, whatever the risks: what leaves the
    array and what enters it. *)
Lemma offer_perm (kept : list FileResult) (result : FileResult) :
  exists d, offer kept result ++ [d] ≡ₚ kept ++ [result].
Proof.
  unfold offer. destruct (findSmallestRisk kept) as [m i] eqn:Hf.
  destruct (m <? Risk result)%float; [|exists result; reflexivity].
  destruct kept as [|x kept]; [exists result; reflexivity|].
  assert (Hi : i < length (x :: kept)).
  { pose proof (findSmallestRisk_loop_any (x :: kept) 0 maxRisk 0) as H.
    unfold findSmallestRisk in Hf. rewrite Hf in H.
    destruct H as [[Heq _]|(k & e & Hk & Heq & _)]; inversion Heq; subst.
    - simpl. lia.
    - eapply lookup_lt_Some, Hk. }
  destruct (lookup_lt_is_Some_2 _ _ Hi) as [e He].
  exists e. rewrite insert_take_drop by exact Hi.
  rewrite <- (take_drop_middle _ _ _ He) at 3. solve_Permutation.
Qed.

Lemma foldl_offer_perm (results : list FileResult) :
  forall kept : list FileResult,
    exists discarded,
      foldl offer kept results ++ discarded ≡ₚ kept ++ results /\
      length discarded = length results.
Proof.
  induction results as [|r results IH]; intros kept; simpl.
  - exists []. split; [reflexivity|reflexivity].
  - destruct (offer_perm kept r) as (d & Hd).
    destruct (IH (offer kept r)) as (ds & Hds & Hlen).
    exists (d :: ds). split; [|simpl; rewrite Hlen; reflexivity].
    transitivity ((offer kept r ++ [d]) ++ results).
    + transitivity (d :: (foldl offer (offer kept r) results ++ ds)); [solve_Permutation|].
      rewrite Hds. solve_Permutation.
    + rewrite Hd, <- app_assoc. reflexivity.
Qed.

(** X4.  Whatever the risks (out of bounds or NaN included),
    [trimDownResults] returns results of its argument, each as often as it
    occurs there at most: together with what it leaves out, they are the
    argument, and it leaves out as many results as exceed ten. *)
Theorem trimDownResults_sub_multiset (results : list FileResult) :
  exists discarded,
    trimDownResults results ++ discarded ≡ₚ results /\
    length discarded = length results - 10.
Proof.
  destruct (Nat.le_gt_cases (length results) maxResults) as [H|H].
  - exists []. rewrite trimDownResults_short, app_nil_r by exact H.
    split; [reflexivity|]. unfold maxResults in H. simpl. lia.
  - rewrite trimDownResults_long by exact H.
    destruct (foldl_offer_perm (drop maxResults results) (take maxResults results))
      as (discarded & Hperm & Hlen).
    exists discarded. rewrite Hperm, take_drop. split; [reflexivity|].
    rewrite Hlen, length_drop. reflexivity.
Qed.

Lemma trimDownResults_at_most_ten (results : list FileResult) :
  length (trimDownResults results) <= maxResults.
Proof.
  destruct (Nat.le_gt_cases (length results) maxResults) as [H|H].
  - rewrite trimDownResults_short by exact H. exact H.
  - rewrite trimDownResults_long, foldl_offer_length, length_take by exact H. lia.
Qed.

(** X5.  Trimming twice is trimming once. *)
Theorem trimDownResults_idempotent (results : list FileResult) :
  trimDownResults (trimDownResults results) = trimDownResults results.
Proof. apply trimDownResults_short, trimDownResults_at_most_ten. Qed.

Lemma foldl_offer_settled (results : list FileResult) :
  forall kept : list FileResult,
    kept <> [] ->
    (forall r, r ∈ kept -> risk_in_range (Risk r)) ->
    (forall c r, c ∈ results -> r ∈ kept -> le (Risk c) (Risk r)) ->
    foldl offer kept results = kept.
Proof.
  induction results as [|c results IH]; intros kept Hne Hrange Hle; simpl; [reflexivity|].
  destruct (offer_spec kept c Hne Hrange) as (i & e & Hi & _ & _ & Heq).
  assert (Hsame : offer kept c = kept).
  { rewrite Heq. destruct (Risk e <? Risk c)%float eqn:Hlt; [|reflexivity].
    exfalso. eapply F64Facts.lt_not_le; [exact Hlt|].
    apply Hle; [left|eapply list_elem_of_lookup_2, Hi]. }
  rewrite Hsame. apply IH; [exact Hne|exact Hrange|].
  intros c' r Hc' Hr. apply Hle; [right; exact Hc'|exact Hr].
Qed.

(** X6.  First come, first kept: when none of the results after the tenth
    is strictly riskier than any of the first ten (ties included), and the
    risks are within bounds, [trimDownResults] returns the first ten, in
    their order. *)
Theorem trimDownResults_keeps_first_ten (results : list FileResult) :
  (forall r, r ∈ results -> risk_in_range (Risk r)) ->
  (forall c r, c ∈ drop 10 results -> r ∈ take 10 results -> le (Risk c) (Risk r)) ->
  trimDownResults results = take 10 results.
Proof.
  intros Hrange Hle.
  destruct (Nat.le_gt_cases (length results) maxResults) as [H|H].
  - rewrite trimDownResults_short, take_ge by exact H. reflexivity.
  - rewrite trimDownResults_long by exact H. apply foldl_offer_settled.
    + intros Hnil. apply (f_equal length) in Hnil. rewrite length_take in Hnil.
      cbn [length] in Hnil. unfold maxResults in H, Hnil. lia.
    + intros r Hr. apply Hrange. rewrite <- (take_drop maxResults results).
      apply elem_of_app. left. exact Hr.
    + exact Hle.
Qed.

End MoreSelection.

(** ** More on the walk *)

Section MoreWalking.
Context (os : OS).

Lemma runs_cons (entries : list WalkEntry) :
  exists run others, runs entries = run :: others.
Proof.
  destruct entries as [|e entries]; simpl; [eauto|].
  destruct (is_dir_entry e); [eauto|]. destruct (runs entries); eauto.
Qed.

Lemma scores_cons (m : gmap string float) (e : WalkEntry) (entries : list WalkEntry) :
  scores os m (e :: entries) = score os m e ++ scores os m entries.
Proof. reflexivity. Qed.

Lemma has_info_cases (e : WalkEntry) :
  has_info e ->
  (is_dir_entry e = true /\ exists info, we_info e = Some info /\ info_IsDir info = true)
  \/ (is_dir_entry e = false /\ is_file e).
Proof.
  intros [info Hinfo]. unfold is_dir_entry, is_file. rewrite Hinfo.
  destruct (info_IsDir info) eqn:Hdir; [left|right]; eauto.
Qed.

(** The walk over entries that all come with a file description: the
    results held at its end, emitted and pending, are those held at its
    start followed by the trimmed results of each run. *)
Lemma Walk_runs (entries : list WalkEntry) :
  forall v : Vars,
    Forall has_info entries ->
    exists v',
      Walk os v entries = Done v' /\
      extensionRiskMap v' = extensionRiskMap v /\
      Dir (finalResult v') = Dir (finalResult v) /\
      Results (finalResult v') ++ trimDownResults (currentResults v') =
        Results (finalResult v) ++
        concat (map trimDownResults
                  (prefix_first (currentResults v)
                     (map (scores os (extensionRiskMap v)) (runs entries)))).
Proof.
  induction entries as [|e entries IH]; intros v Hinfo.
  - exists v. simpl. rewrite !app_nil_r. auto.
  - inversion Hinfo as [|? ? He Hrest]; subst.
    destruct (runs_cons entries) as (run & others & Hruns).
    destruct (has_info_cases e He) as [[Hd (info & Hi & Hdir)]|[Hd Hfile]].
    + destruct (IH (flush v) Hrest) as (v' & Hwalk & Hmap & Hdir' & Hres).
      exists v'. simpl. rewrite (walkFn_dir os v e info Hi Hdir). simpl.
      split; [exact Hwalk|]. split; [exact Hmap|]. split; [exact Hdir'|].
      rewrite Hres, Hd. simpl. rewrite Hruns, appendAll_app. simpl.
      rewrite !app_nil_r, <- app_assoc. reflexivity.
    + destruct (IH {| extensionRiskMap := extensionRiskMap v;
                      finalResult := finalResult v;
                      currentResults := currentResults v ++ score os (extensionRiskMap v) e |}
                   Hrest) as (v' & Hwalk & Hmap & Hdir' & Hres).
      exists v'. simpl. rewrite (walkFn_file os v e Hfile). simpl.
      split; [exact Hwalk|]. split; [exact Hmap|]. split; [exact Hdir'|].
      rewrite Hres, Hd. simpl. rewrite Hruns. simpl.
      rewrite scores_cons, <- app_assoc. reflexivity.
Qed.

Lemma Walk_nil_info (entries : list WalkEntry) :
  forall (v : Vars) (e : WalkEntry),
    e ∈ entries -> we_info e = None ->
    Walk os v entries = Panic "invalid memory address or nil pointer dereference".
Proof.
  induction entries as [|x entries IH]; intros v e He Hnil; [inversion He|].
  simpl. destruct (we_info x) as [info|] eqn:Hx.
  - apply elem_of_cons in He as [->|He]; [congruence|].
    unfold walkFn. rewrite Hx.
    destruct (info_IsDir info); simpl; eapply IH; eassumption.
  - unfold walkFn. rewrite Hx. reflexivity.
Qed.

Lemma scan_runs (m : gmap string float) (rootDir : string) (entries : list WalkEntry) :
  Forall has_info entries ->
  scan os m rootDir entries =
    Done {| Dir := Abs os rootDir;
            Results :=
              concat (map (fun run => trimDownResults (scores os m run)) (runs entries)) |}.
Proof.
  intros Hinfo. unfold scan.
  destruct (Walk_runs entries
              {| extensionRiskMap := m;
                 finalResult := {| Dir := Abs os rootDir; Results := [] |};
                 currentResults := [] |} Hinfo) as (v' & Hwalk & _ & Hdir & Hres).
  rewrite Hwalk. simpl in *. rewrite appendAll_app, Hres, Hdir. do 2 f_equal.
  destruct (runs_cons entries) as (run & others & ->). simpl.
  rewrite map_map. reflexivity.
Qed.

(** X1.  A scan runs to its end exactly when every entry comes with a file
    description; one entry with a nil [info], wherever it stands, makes the
    whole scan a nil-dereference panic. *)
Theorem scan_ends_iff_all_info (m : gmap string float) (rootDir : string)
    (entries : list WalkEntry) :
  ((exists d, scan os m rootDir entries = Done d) <-> Forall has_info entries) /\
  (forall e, e ∈ entries -> we_info e = None ->
     scan os m rootDir entries = Panic "invalid memory address or nil pointer dereference").
Proof.
  assert (Hpanic : forall e, e ∈ entries -> we_info e = None ->
            scan os m rootDir entries
              = Panic "invalid memory address or nil pointer dereference").
  { intros e He Hnil. unfold scan. rewrite (Walk_nil_info entries _ e He Hnil). reflexivity. }
  split; [split|exact Hpanic].
  - intros [d Hd]. apply Forall_forall. intros e He.
    destruct (we_info e) as [info|] eqn:Hi; [exists info; exact Hi|].
    rewrite (Hpanic e He Hi) in Hd. discriminate.
  - intros Hinfo. rewrite (scan_runs m rootDir entries Hinfo). eauto.
Qed.

(** X2.  The result of a scan over entries that all come with a file
    description: the absolute root, and, run by run in walk order, the
    trimmed results of the files between two directory entries.  Files are
    grouped by run, not by the directory they lie in. *)
Theorem scan_results_by_runs (m : gmap string float) (rootDir : string)
    (entries : list WalkEntry) :
  Forall has_info entries ->
  scan os m rootDir entries =
    Done {| Dir := Abs os rootDir;
            Results :=
              concat (map (fun run => trimDownResults (scores os m run)) (runs entries)) |}.
Proof. apply scan_runs. Qed.

Lemma scan_Done_has_info (m : gmap string float) (rootDir : string)
    (entries : list WalkEntry) (d : DirResult) :
  scan os m rootDir entries = Done d -> Forall has_info entries.
Proof.
  intros Hd. apply Forall_forall. intros e He.
  destruct (we_info e) as [info|] eqn:Hi; [exists info; exact Hi|].
  unfold scan in Hd. rewrite (Walk_nil_info entries _ e He Hi) in Hd. discriminate.
Qed.

Lemma runs_length (entries : list WalkEntry) :
  length (runs entries) = S (length (List.filter is_dir_entry entries)).
Proof.
  induction entries as [|e entries IH]; [reflexivity|]. simpl.
  destruct (is_dir_entry e); simpl; [rewrite IH; reflexivity|].
  destruct (runs entries); simpl in *; lia.
Qed.

Lemma concat_trimmed_length (groups : list (list FileResult)) :
  length (concat (map trimDownResults groups)) <= maxResults * length groups.
Proof.
  induction groups as [|g groups IH]; simpl; [lia|].
  rewrite length_app. pose proof (trimDownResults_at_most_ten g) as Hg.
  unfold maxResults in *. lia.
Qed.

(** X3.  A finished scan delivers at most ten results per run: no more than
    ten times the number of directory entries met plus one. *)
Theorem scan_results_bound (m : gmap string float) (rootDir : string)
    (entries : list WalkEntry) (d : DirResult) :
  scan os m rootDir entries = Done d ->
  length (Results d) <= 10 * S (length (List.filter is_dir_entry entries)).
Proof.
  intros Hd. pose proof (scan_Done_has_info m rootDir entries d Hd) as Hinfo.
  rewrite (scan_runs m rootDir entries Hinfo) in Hd. inversion Hd; subst; clear Hd.
  cbn [Results]. rewrite <- runs_length, <- (length_map (scores os m) (runs entries)).
  rewrite <- (map_map (scores os m) trimDownResults).
  apply concat_trimmed_length.
Qed.

Lemma scores_app (m : gmap string float) (l1 l2 : list WalkEntry) :
  scores os m (l1 ++ l2) = scores os m l1 ++ scores os m l2.
Proof. unfold scores. rewrite map_app, concat_app. reflexivity. Qed.

Lemma scores_runs (m : gmap string float) (entries : list WalkEntry) :
  concat (map (scores os m) (runs entries))
    = scores os m (List.filter (fun e => negb (is_dir_entry e)) entries).
Proof.
  induction entries as [|e entries IH]; [reflexivity|]. simpl.
  destruct (is_dir_entry e); simpl; [exact IH|].
  rewrite scores_cons, <- IH.
  destruct (runs entries) as [|run others]; simpl.
  - unfold scores. simpl. rewrite !app_nil_r. reflexivity.
  - rewrite scores_cons, <- app_assoc. reflexivity.
Qed.

(** X9.  When no run holds more than ten scored files, nothing is trimmed:
    the scan delivers the result of every scored file, in walk order. *)
Theorem scan_small_runs_complete (m : gmap string float) (rootDir : string)
    (entries : list WalkEntry) :
  Forall has_info entries ->
  Forall (fun run => length (scores os m run) <= 10) (runs entries) ->
  scan os m rootDir entries =
    Done {| Dir := Abs os rootDir;
            Results := scores os m (List.filter (fun e => negb (is_dir_entry e)) entries) |}.
Proof.
  intros Hinfo Hsmall. rewrite (scan_runs m rootDir entries Hinfo). do 2 f_equal.
  rewrite <- scores_runs. f_equal.
  induction Hsmall as [|run others Hrun _ IH]; [reflexivity|]. simpl.
  rewrite IH, trimDownResults_short by exact Hrun. reflexivity.
Qed.

End MoreWalking.

(** ** More on the command line and on [main] *)

Section MoreCommandLine.

Lemma index_lookup_lt (args : list string) (i : nat) :
  i < length args -> args !! i = Some (index args i).
Proof.
  intros Hi. destruct (lookup_lt_is_Some_2 args i Hi) as [a Ha].
  rewrite (index_lookup args i a Ha). exact Ha.
Qed.

(** What a flag test of the loop that succeeds at [i] writes keeps every
    value of the map right after its flag on the command line. *)
Lemma insert_value_follows (args : list string) (result : gmap string string)
    (flag : string) (i : nat) :
  (forall key value, result !! key = Some value ->
     (key = dirArg \/ key = outArg) /\ follows args key value) ->
  flag = dirArg \/ flag = outArg ->
  String.eqb flag (index args i) && (i + 1 <? length args) = true ->
  forall key value, insert flag (index args (i + 1)) result !! key = Some value ->
    (key = dirArg \/ key = outArg) /\ follows args key value.
Proof.
  intros Hinv Hflag Htest key value Hlookup.
  apply andb_true_iff in Htest as [Heq Hlt].
  apply String.eqb_eq in Heq. apply Nat.ltb_lt in Hlt.
  apply lookup_insert_Some in Hlookup as [[<- <-]|[_ Hold]]; [|auto].
  split; [exact Hflag|]. exists i. split.
  - rewrite Heq. apply index_lookup_lt. lia.
  - rewrite <- Nat.add_1_r. apply index_lookup_lt. exact Hlt.
Qed.

Lemma readCommandLineArgs_loop_follows (args : list string) :
  forall (fuel i : nat) (result : gmap string string),
    (forall key value, result !! key = Some value ->
       (key = dirArg \/ key = outArg) /\ follows args key value) ->
    forall key value,
      readCommandLineArgs_loop fuel args i result !! key = Some value ->
      (key = dirArg \/ key = outArg) /\ follows args key value.
Proof.
  induction fuel as [|fuel IH]; intros i result Hinv; [exact Hinv|].
  rewrite readCommandLineArgs_loop_S.
  destruct (i <? length args); [|exact Hinv].
  destruct (String.eqb dirArg (index args i) && (i + 1 <? length args)) eqn:Hd;
    cbv beta iota zeta.
  - pose proof (insert_value_follows args result dirArg i Hinv (or_introl eq_refl) Hd) as Hinv1.
    destruct (String.eqb outArg (index args (i + 1)) && (i + 1 + 1 <? length args)) eqn:Ho;
      cbv beta iota zeta; apply IH; [|exact Hinv1].
    exact (insert_value_follows args _ outArg (i + 1) Hinv1 (or_intror eq_refl) Ho).
  - destruct (String.eqb outArg (index args i) && (i + 1 <? length args)) eqn:Ho;
      cbv beta iota zeta; apply IH; [|exact Hinv].
    exact (insert_value_follows args result outArg i Hinv (or_intror eq_refl) Ho).
Qed.

(** X8.  The map [readCommandLineArgs] returns has no key but [--dir] and
    [--out], and the value of each is an argument that stands right after an
    occurrence of that flag: other arguments are ignored, and no value is made
    up. *)
Theorem readCommandLineArgs_values_follow_flags (prog : string) (args : list string)
    (parsed : gmap string string) (key value : string) :
  readCommandLineArgs (prog :: args) = Done parsed ->
  parsed !! key = Some value ->
  (key = dirArg \/ key = outArg) /\ follows args key value.
Proof.
  unfold readCommandLineArgs. intros Hparsed. inversion Hparsed; subst; clear Hparsed.
  apply readCommandLineArgs_loop_follows.
  intros k v Hk. rewrite lookup_empty in Hk. discriminate.
Qed.

Lemma index_0 (a : string) (args : list string) : index (a :: args) 0 = a.
Proof. reflexivity. Qed.

Lemma index_S (a : string) (args : list string) (i : nat) :
  index (a :: args) (S i) = index args i.
Proof. reflexivity. Qed.

Ltac read_args :=
  repeat (progress
    (cbv beta iota zeta;
     cbn [Nat.add Nat.ltb Nat.leb andb length];
     rewrite ?index_0, ?index_S, ?andb_false_r;
     change (String.eqb dirArg dirArg) with true;
     change (String.eqb outArg outArg) with true;
     change (String.eqb dirArg outArg) with false;
     change (String.eqb outArg dirArg) with false)).

Lemma readCommandLineArgs_dir_out (prog rootDir outFileName : string) :
  rootDir <> outArg ->
  readCommandLineArgs [prog; dirArg; rootDir; outArg; outFileName]
    = Done (insert outArg outFileName (insert dirArg rootDir empty)).
Proof.
  intros Hne. unfold readCommandLineArgs. f_equal.
  assert (Hd : String.eqb outArg rootDir = false) by (apply String.eqb_neq; congruence).
  cbn [length]. rewrite readCommandLineArgs_loop_S. read_args.
  rewrite Hd. read_args.
  rewrite readCommandLineArgs_loop_S. read_args.
  apply readCommandLineArgs_loop_done. cbn [length]. lia.
Qed.

Lemma readCommandLineArgs_out_dir (prog rootDir outFileName : string) :
  readCommandLineArgs [prog; outArg; outFileName; dirArg; rootDir]
    = Done (insert dirArg rootDir (insert outArg outFileName empty)).
Proof.
  unfold readCommandLineArgs. f_equal.
  cbn [length]. rewrite readCommandLineArgs_loop_S. read_args.
  rewrite readCommandLineArgs_loop_S. read_args.
  apply readCommandLineArgs_loop_done. cbn [length]. lia.
Qed.

(** X10.  The two flags may come in either order: [--dir d --out o] and
    [--out o --dir d] are read as the same map, [--dir] to [d] and [--out]
    to [o], provided [d] is not the text [--out]. *)
Theorem readCommandLineArgs_either_order (prog rootDir outFileName : string) :
  rootDir <> outArg ->
  readCommandLineArgs [prog; dirArg; rootDir; outArg; outFileName]
    = readCommandLineArgs [prog; outArg; outFileName; dirArg; rootDir] /\
  exists parsed,
    readCommandLineArgs [prog; dirArg; rootDir; outArg; outFileName] = Done parsed /\
    parsed !! dirArg = Some rootDir /\
    parsed !! outArg = Some outFileName.
Proof.
  intros Hne. rewrite (readCommandLineArgs_dir_out prog rootDir outFileName Hne).
  rewrite readCommandLineArgs_out_dir. split.
  - apply (f_equal Done). apply insert_insert_ne. discriminate.
  - eexists. split; [reflexivity|]. split.
    + rewrite lookup_insert_ne by discriminate. apply lookup_insert_eq.
    + apply lookup_insert_eq.
Qed.

End MoreCommandLine.

Section MoreMain.
Context (os : OS).

(** X11.  Whatever the arguments and the file system, [main] encodes a
    result only as the second of three steps, open, encode and close; what
    it encodes is the finished scan of the directory given for [--dir], with
    the program's table, into the file given for [--out], which opened
    without error.  After a panic, a missing flag or a failed open nothing
    is encoded. *)
Theorem main_encodes_finished_scan (env : Env) (trace : list Event)
    (result : outcome unit) (name : string) (data : DirResult) :
  main os env = (trace, result) ->
  EvEncode name data ∈ trace ->
  exists args rootDir,
    readCommandLineArgs (os_Args env) = Done args /\
    args !! dirArg = Some rootDir /\
    args !! outArg = Some name /\
    scan os initExtensionRiskMap rootDir (walk_of env rootDir) = Done data /\
    open_error env name = None /\
    trace = [EvOpenFile name None; EvEncode name data; EvClose name] /\
    result = Done tt.
Proof.
  unfold main. intros Hmain Hin.
  destruct (readCommandLineArgs (os_Args env)) as [args|reason] eqn:Hargs;
    [|inversion Hmain; subst; inversion Hin].
  destruct (args !! dirArg) as [rootDir|] eqn:Hdir;
    [destruct (args !! outArg) as [outFileName|] eqn:Hout|].
  - destruct (scan os initExtensionRiskMap rootDir (walk_of env rootDir)) as [d|reason] eqn:Hscan;
      [|inversion Hmain; subst; inversion Hin].
    destruct (open_error env outFileName) as [err|] eqn:Hopen;
      inversion Hmain; subst; clear Hmain.
    + repeat (apply elem_of_cons in Hin as [Heq|Hin]; [discriminate|]). inversion Hin.
    + apply elem_of_cons in Hin as [Heq|Hin]; [discriminate|].
      apply elem_of_cons in Hin as [Heq|Hin].
      * inversion Heq; subst. exists args, rootDir. auto 10.
      * apply elem_of_cons in Hin as [Heq|Hin]; [discriminate|inversion Hin].
  - inversion Hmain; subst.
    apply elem_of_cons in Hin as [Heq|Hin]; [discriminate|inversion Hin].
  - inversion Hmain; subst.
    apply elem_of_cons in Hin as [Heq|Hin]; [discriminate|inversion Hin].
Qed.

End MoreMain.

(** ** More on the scoring, and [getDir] *)

Section MoreScoring.
Context (os : OS).
Import F64.

Lemma Split_cons (s : string) (sep : ascii) :
  exists piece pieces, Split s sep = piece :: pieces.
Proof.
  induction s as [|c s IH]; simpl; [eauto|].
  destruct (Ascii.eqb c sep); [eauto|].
  destruct IH as (piece & pieces & ->). eauto.
Qed.

(** X12.  [getDir] never panics and never returns a directory: whatever
    the path and the separator, its result is the empty string. *)
Theorem getDir_empty (sep : ascii) (path : string) :
  getDir sep path = Done EmptyString.
Proof.
  unfold getDir. destruct (Split_cons path sep) as (piece & pieces & ->). reflexivity.
Qed.

(** X13.  With the program's table, the risk [assessFileRisk] returns lies
    between -0.20 and 1.20, not between 0.0 and 1.0, and both ends are
    reached: -0.20 by an image of at most 1,000,000 bytes not modified in the
    last week, 1.20 by a [.csv] or [.json] file of more than 1,000,000 bytes
    modified in the last week. *)
Theorem assessFileRisk_range (now : Z) (path : string) (info : FileInfo) :
  le (-0.20) (assessFileRisk os initExtensionRiskMap now path info) /\
  le (assessFileRisk os initExtensionRiskMap now path info) 1.20 /\
  (Ext os path ∈ [".png"; ".jpg"; ".jpeg"] ->
   (info_Size info <= 1000000)%Z ->
   (info_ModTime info <= now - 168 * time_Hour)%Z ->
   assessFileRisk os initExtensionRiskMap now path info = (-0.20)%float) /\
  (Ext os path ∈ [".csv"; ".json"] ->
   (1000000 < info_Size info)%Z ->
   (now - 168 * time_Hour < info_ModTime info)%Z ->
   assessFileRisk os initExtensionRiskMap now path info = 1.20%float).
Proof.
  unfold assessFileRisk. rewrite assessExtension_delta.
  unfold Time_After, Time_Add, hoursInWeek.
  split; [|split; [|split]].
  - unfold extension_delta.
    destruct (1000000 <? info_Size info)%Z; destruct (_ <? info_ModTime info)%Z;
      repeat match goal with
      | |- context [String.eqb ?a ?b] => destruct (String.eqb a b)
      end; vm_compute; reflexivity.
  - unfold extension_delta.
    destruct (1000000 <? info_Size info)%Z; destruct (_ <? info_ModTime info)%Z;
      repeat match goal with
      | |- context [String.eqb ?a ?b] => destruct (String.eqb a b)
      end; vm_compute; reflexivity.
  - intros Hext Hsize Hold.
    replace (1000000 <? info_Size info)%Z with false by (symmetry; apply Z.ltb_ge; lia).
    replace (now + time_Hour * - (24 * 7) <? info_ModTime info)%Z with false
      by (symmetry; apply Z.ltb_ge; lia).
    repeat (apply elem_of_cons in Hext as [->|Hext]; [reflexivity|]). inversion Hext.
  - intros Hext Hsize Hnew.
    replace (1000000 <? info_Size info)%Z with true by (symmetry; apply Z.ltb_lt; lia).
    replace (now + time_Hour * - (24 * 7) <? info_ModTime info)%Z with true
      by (symmetry; apply Z.ltb_lt; lia).
    repeat (apply elem_of_cons in Hext as [->|Hext]; [reflexivity|]). inversion Hext.
Qed.

Lemma stored_risk_monotone (now : Z) (path : string) (info1 info2 : FileInfo) :
  (info_Size info1 <= info_Size info2)%Z ->
  (info_ModTime info1 <= info_ModTime info2)%Z ->
  le (checkRiskRange
        (assessFileRisk os initExtensionRiskMap now path info1 + assessDirNameLength path))
     (checkRiskRange
        (assessFileRisk os initExtensionRiskMap now path info2 + assessDirNameLength path)).
Proof.
  intros Hsize Hmtime.
  unfold assessFileRisk, assessDirNameLength. rewrite assessExtension_delta.
  unfold Time_After, Time_Add, extension_delta.
  destruct (Z.ltb_spec 1000000 (info_Size info1)); destruct (Z.ltb_spec 1000000 (info_Size info2));
    try lia;
    destruct (Z.ltb_spec (now + time_Hour * - hoursInWeek) (info_ModTime info1));
    destruct (Z.ltb_spec (now + time_Hour * - hoursInWeek) (info_ModTime info2));
    try lia;
    destruct (String.length path <? 5); destruct (15 <? String.length path);
    repeat match goal with
    | |- context [String.eqb ?a ?b] => destruct (String.eqb a b)
    end; vm_compute; reflexivity.
Qed.

(** X14.  Of two files under the same path, assessed at the same time, the
    larger and more recently modified one never gets the smaller stored
    risk. *)
Theorem risk_monotone_in_size_and_recency (now : Z) (path : string)
    (info1 info2 : FileInfo) (r1 r2 : FileResult) :
  (info_Size info1 <= info_Size info2)%Z ->
  (info_ModTime info1 <= info_ModTime info2)%Z ->
  r1 ∈ assessDirRisk os initExtensionRiskMap now path info1 None ->
  r2 ∈ assessDirRisk os initExtensionRiskMap now path info2 None ->
  le (Risk r1) (Risk r2).
Proof.
  intros Hsize Hmtime Hr1 Hr2.
  rewrite assessDirRisk_cases in Hr1. case_decide; [|inversion Hr1].
  apply list_elem_of_singleton in Hr1 as ->.
  rewrite assessDirRisk_cases in Hr2. case_decide; [|inversion Hr2].
  apply list_elem_of_singleton in Hr2 as ->.
  simpl. apply stored_risk_monotone; assumption.
Qed.

End MoreScoring.

(** ** More on clamping and on what a scan delivers *)

Section MoreClamping.
Context (os : OS).
Import F64.

Lemma lt_num_r (x y : float) : lt x y -> num y.
Proof. intros H. eapply F64Facts.le_num_r, F64Facts.lt_le, H. Qed.

Lemma lt_num_l (x y : float) : lt x y -> num x.
Proof. intros H. eapply F64Facts.le_num_l, F64Facts.lt_le, H. Qed.

(** X15.  [checkRiskRange] brings every number, infinite ones included,
    within [0.0, 1.0]; a NaN passes through it unchanged; and clamping a
    second time changes nothing. *)
Theorem checkRiskRange_numbers_only (risk : float) :
  (num risk -> risk_in_range (checkRiskRange risk)) /\
  (~ num risk -> checkRiskRange risk = risk) /\
  checkRiskRange (checkRiskRange risk) = checkRiskRange risk.
Proof.
  unfold checkRiskRange.
  destruct (maxRisk <? risk)%float eqn:Hmax; [|destruct (risk <? minRisk)%float eqn:Hmin].
  - split; [intros _; split; reflexivity|]. split; [|reflexivity].
    intros Hnan. exfalso. apply Hnan. eapply lt_num_r, Hmax.
  - split; [intros _; split; reflexivity|]. split; [|reflexivity].
    intros Hnan. exfalso. apply Hnan. eapply lt_num_l, Hmin.
  - split; [|split; [reflexivity|rewrite Hmax, Hmin; reflexivity]].
    intros Hnum. split; apply F64Facts.not_lt_le; try assumption; reflexivity.
Qed.

Lemma trimDownResults_perm (results : list FileResult) :
  exists discarded, trimDownResults results ++ discarded ≡ₚ results.
Proof.
  destruct (Nat.le_gt_cases (length results) maxResults) as [H|H].
  - exists []. rewrite trimDownResults_short, app_nil_r by exact H. reflexivity.
  - rewrite trimDownResults_long by exact H.
    destruct (foldl_offer_perm (drop maxResults results) (take maxResults results))
      as (discarded & Hperm & _).
    exists discarded. rewrite Hperm, take_drop. reflexivity.
Qed.

Lemma concat_trimmed_perm (groups : list (list FileResult)) :
  exists discarded, concat (map trimDownResults groups) ++ discarded ≡ₚ concat groups.
Proof.
  induction groups as [|g groups (ds & IH)]; [exists []; reflexivity|].
  destruct (trimDownResults_perm g) as (d & Hd).
  exists (d ++ ds). simpl. rewrite <- Hd at 2. rewrite <- IH. solve_Permutation.
Qed.

(** X16.  A finished scan reports no file twice and no file it did not
    score: its results, together with the ones trimmed away, are exactly the
    results of the scored file entries of the walk. *)
Theorem scan_results_sub_multiset (m : gmap string float) (rootDir : string)
    (entries : list WalkEntry) (d : DirResult) :
  scan os m rootDir entries = Done d ->
  exists discarded,
    Results d ++ discarded
      ≡ₚ scores os m (List.filter (fun e => negb (is_dir_entry e)) entries).
Proof.
  intros Hd. pose proof (scan_Done_has_info os m rootDir entries d Hd) as Hinfo.
  rewrite (scan_runs os m rootDir entries Hinfo) in Hd. inversion Hd; subst; clear Hd.
  cbn [Results]. rewrite <- scores_runs.
  rewrite <- (map_map (scores os m) trimDownResults).
  apply concat_trimmed_perm.
Qed.

End MoreClamping.

(** ** The further properties on sample inputs *)

Section MoreSamples.
Import F64 Sample Sample2.

Ltac all_have_info :=
  repeat (constructor; [eexists; reflexivity|]); constructor.

(** X1, on the walk in which one file has vanished. *)
Lemma scan_ends_iff_all_info_witness :
  scan unix initExtensionRiskMap "/data" racy_walk
    = Panic "invalid memory address or nil pointer dereference" /\
  exists d, scan unix initExtensionRiskMap "/d" tree = Done d.
Proof.
  split.
  - apply (proj2 (scan_ends_iff_all_info unix initExtensionRiskMap "/data" racy_walk) vanished).
    + apply (list_elem_of_lookup_2 _ 1). reflexivity.
    + reflexivity.
  - apply (proj2 (proj1 (scan_ends_iff_all_info unix initExtensionRiskMap "/d" tree))).
    all_have_info.
Defined.

(** X2, on the walk over two directories. *)
Lemma scan_results_by_runs_witness :
  scan unix initExtensionRiskMap "/d" tree =
    Done {| Dir := "/d";
            Results :=
              concat (map (fun run => trimDownResults (scores unix initExtensionRiskMap run))
                        (runs tree)) |}.
Proof.
  apply (scan_results_by_runs unix initExtensionRiskMap "/d" tree). all_have_info.
Defined.

(** X3, on the walk over two directories, which meets two directory
    entries: at most 30 results. *)
Lemma scan_results_bound_witness :
  exists d,
    scan unix initExtensionRiskMap "/d" tree = Done d /\ length (Results d) <= 30.
Proof.
  assert (Hinfo : Forall has_info tree) by all_have_info.
  eexists. split; [apply (scan_runs unix initExtensionRiskMap "/d" tree Hinfo)|].
  exact (scan_results_bound unix initExtensionRiskMap "/d" tree _
           (scan_runs unix initExtensionRiskMap "/d" tree Hinfo)).
Defined.

(** X6, on twelve results of which the last two are no riskier than the
    first ten. *)
Lemma trimDownResults_keeps_first_ten_witness :
  trimDownResults settled = take 10 settled.
Proof.
  apply trimDownResults_keeps_first_ten.
  - intros r Hr. unfold settled in Hr.
    repeat (apply elem_of_cons in Hr as [->|Hr]; [split; reflexivity|]). inversion Hr.
  - intros c r Hc Hr. unfold settled in Hc, Hr. simpl in Hc, Hr.
    repeat (apply elem_of_cons in Hc as [->|Hc];
            [repeat (apply elem_of_cons in Hr as [->|Hr]; [reflexivity|]); inversion Hr|]).
    inversion Hc.
Defined.

(** X7, on the array that holds the first ten of the twelve sample
    results. *)
Lemma findSmallestRisk_in_bounds_witness :
  snd (findSmallestRisk (take 10 twelve_results)) < 10.
Proof.
  apply (proj1 (findSmallestRisk_in_bounds (take 10 twelve_results) ltac:(discriminate))).
Defined.

(** X8, on the usual command line. *)
Lemma readCommandLineArgs_values_follow_flags_witness :
  follows ["--dir"; "/d"; "--out"; "out.json"] "--out" "out.json".
Proof.
  apply (readCommandLineArgs_values_follow_flags "riskScan"
           ["--dir"; "/d"; "--out"; "out.json"]
           (readCommandLineArgs_loop 4 ["--dir"; "/d"; "--out"; "out.json"] 0 empty)
           "--out" "out.json").
  - reflexivity.
  - vm_compute. reflexivity.
Defined.

(** X9, on a walk in which no run has more than ten scored files. *)
Lemma scan_small_runs_complete_witness :
  scan unix initExtensionRiskMap "/d" small_tree =
    Done {| Dir := "/d";
            Results :=
              scores unix initExtensionRiskMap
                (List.filter (fun e => negb (is_dir_entry e)) small_tree) |}.
Proof.
  apply (scan_small_runs_complete unix initExtensionRiskMap "/d" small_tree).
  - all_have_info.
  - repeat (constructor; [vm_compute; lia|]). constructor.
Defined.

(** X10, on the usual command line. *)
Lemma readCommandLineArgs_either_order_witness :
  readCommandLineArgs ["riskScan"; "--dir"; "/d"; "--out"; "out.json"]
    = readCommandLineArgs ["riskScan"; "--out"; "out.json"; "--dir"; "/d"].
Proof.
  apply (proj1 (readCommandLineArgs_either_order "riskScan" "/d" "out.json" ltac:(discriminate))).
Defined.

(** X11, on a run of the program over the small sample tree. *)
Lemma main_encodes_finished_scan_witness :
  exists args rootDir,
    readCommandLineArgs (os_Args (env ["--dir"; "/d"; "--out"; "out.json"] None)) = Done args /\
    args !! dirArg = Some rootDir /\
    args !! outArg = Some "out.json".
Proof.
  destruct (main_encodes_finished_scan unix (env ["--dir"; "/d"; "--out"; "out.json"] None)
              [ EvOpenFile "out.json" None;
                EvEncode "out.json"
                  {| Dir := "/d";
                     Results := scores unix initExtensionRiskMap
                                  (List.filter (fun e => negb (is_dir_entry e)) small_tree) |};
                EvClose "out.json" ]
              (Done tt) "out.json"
              {| Dir := "/d";
                 Results := scores unix initExtensionRiskMap
                              (List.filter (fun e => negb (is_dir_entry e)) small_tree) |})
    as (args & rootDir & Hargs & Hdir & Hout & _).
  - vm_compute. reflexivity.
  - apply (list_elem_of_lookup_2 _ 1). reflexivity.
  - exists args, rootDir. auto.
Defined.

(** X13, on an old small image and on the sample file [big.csv]. *)
Lemma assessFileRisk_range_witness :
  assessFileRisk unix initExtensionRiskMap now "/d/sub/a.png" (file "a.png" 500 old)
    = (-0.20)%float /\
  assessFileRisk unix initExtensionRiskMap now "/data/scans1/big.csv" big_csv_info
    = 1.20%float.
Proof.
  split.
  - apply (proj1 (proj2 (proj2 (assessFileRisk_range unix now "/d/sub/a.png"
                                  (file "a.png" 500 old))))).
    + apply (list_elem_of_lookup_2 _ 0). reflexivity.
    + vm_compute. discriminate.
    + vm_compute. discriminate.
  - apply (proj2 (proj2 (proj2 (assessFileRisk_range unix now "/data/scans1/big.csv"
                                  big_csv_info)))).
    + apply (list_elem_of_lookup_2 _ 0). reflexivity.
    + vm_compute. reflexivity.
    + vm_compute. reflexivity.
Defined.

(** X14, on an old file of 2000 bytes and a recent one of 2,000,000 bytes
    under the same path. *)
Lemma risk_monotone_in_size_and_recency_witness :
  le (Risk {| Path := "/d/sub/c.zip"; Risk := 0.65%float |})
     (Risk {| Path := "/d/sub/c.zip"; Risk := 1.0%float |}).
Proof.
  apply (risk_monotone_in_size_and_recency unix now "/d/sub/c.zip"
           (file "c.zip" 2000 old) (file "c.zip" 2000000 recent)).
  - vm_compute. discriminate.
  - vm_compute. discriminate.
  - apply (list_elem_of_lookup_2 _ 0). vm_compute. reflexivity.
  - apply (list_elem_of_lookup_2 _ 0). vm_compute. reflexivity.
Defined.

(** X15, on a risk above the range. *)
Lemma checkRiskRange_numbers_only_witness :
  risk_in_range (checkRiskRange 1.7%float) /\ checkRiskRange nan = nan.
Proof.
  split.
  - apply (proj1 (checkRiskRange_numbers_only 1.7%float)). reflexivity.
  - apply (proj1 (proj2 (checkRiskRange_numbers_only nan))). discriminate.
Defined.

(** X16, on the walk over two directories. *)
Lemma scan_results_sub_multiset_witness :
  exists discarded,
    concat (map (fun run => trimDownResults (scores unix initExtensionRiskMap run))
              (runs tree)) ++ discarded
      ≡ₚ scores unix initExtensionRiskMap
           (List.filter (fun e => negb (is_dir_entry e)) tree).
Proof.
  assert (Hinfo : Forall has_info tree) by all_have_info.
  exact (scan_results_sub_multiset unix initExtensionRiskMap "/d" tree _
           (scan_runs unix initExtensionRiskMap "/d" tree Hinfo)).
Defined.

End MoreSamples.

(** ** The ten riskiest results of a run *)

Section RunSelection.
Context (os : OS).
Import F64.

Lemma runs_app_dir (before : list WalkEntry) (d : WalkEntry) (rest : list WalkEntry) :
  is_dir_entry d = true ->
  runs (before ++ d :: rest) = runs before ++ runs rest.
Proof.
  intros Hd. induction before as [|e before IH]; simpl.
  - rewrite Hd. reflexivity.
  - rewrite IH. destruct (is_dir_entry e); [reflexivity|].
    destruct (runs_cons before) as (run & others & ->). reflexivity.
Qed.

Lemma is_file_not_dir (e : WalkEntry) : is_file e -> is_dir_entry e = false.
Proof. intros (info & Hinfo & Hdir). unfold is_dir_entry. rewrite Hinfo. exact Hdir. Qed.

Lemma runs_files (files : list WalkEntry) :
  Forall is_file files -> runs files = [files].
Proof.
  induction 1 as [|e files He _ IH]; [reflexivity|].
  simpl. rewrite (is_file_not_dir e He), IH. reflexivity.
Qed.

Lemma runs_files_then (files after : list WalkEntry) :
  Forall is_file files ->
  after = [] \/ (exists d' rest, after = d' :: rest /\ is_dir_entry d' = true) ->
  runs (files ++ after) = files :: match after with [] => [] | _ :: rest => runs rest end.
Proof.
  intros Hfiles [->|(d' & rest & -> & Hd')].
  - rewrite app_nil_r. apply runs_files, Hfiles.
  - rewrite (runs_app_dir files d' rest Hd'), (runs_files files Hfiles). reflexivity.
Qed.

(** C1 (as amended).  Take a walk that does not panic and, in it, a run of
    file entries that stands directly after a directory entry and directly
    before the next directory entry or the end of the walk, with more than
    10 scored files.  The scan delivers, between the results of the entries
    before the run and those of the entries after it, exactly 10 results of
    the run; none of them has a risk below that of a discarded one; and at
    each turn past the tenth the result the candidate may replace is the
    one at the lowest position of the array among those of smallest risk,
    replaced only when the candidate's risk is strictly greater. *)
Theorem top_ten_of_run (rootDir : string) (before : list WalkEntry) (d : WalkEntry)
    (files after : list WalkEntry) :
  Forall has_info (before ++ d :: files ++ after) ->
  is_dir_entry d = true ->
  Forall is_file files ->
  after = [] \/ (exists d' rest, after = d' :: rest /\ is_dir_entry d' = true) ->
  10 < length (List.filter qualifying files) ->
  let trimmed := fun run => trimDownResults (scores os initExtensionRiskMap run) in
  let scored := scores os initExtensionRiskMap files in
  scan os initExtensionRiskMap rootDir (before ++ d :: files ++ after) =
    Done {| Dir := Abs os rootDir;
            Results :=
              concat (map trimmed (runs before))
              ++ trimDownResults scored
              ++ match after with
                 | [] => []
                 | _ :: rest => concat (map trimmed (runs rest))
                 end |} /\
  length (trimDownResults scored) = 10 /\
  (exists discarded,
     trimDownResults scored ++ discarded ≡ₚ scored /\
     forall r x, r ∈ trimDownResults scored -> x ∈ discarded -> le (Risk x) (Risk r)) /\
  array_after scored (length scored) = trimDownResults scored /\
  (forall n result,
     10 <= n -> scored !! n = Some result ->
     exists i e,
       array_after scored n !! i = Some e /\
       (forall r, r ∈ array_after scored n -> le (Risk e) (Risk r)) /\
       (forall j r, j < i -> array_after scored n !! j = Some r -> lt (Risk e) (Risk r)) /\
       array_after scored (S n) =
         if (Risk e <? Risk result)%float then <[i := result]> (array_after scored n)
         else array_after scored n).
Proof.
  intros Hinfo Hd Hfiles Hafter Hmany trimmed scored.
  assert (Hlen : maxResults < length scored)
    by (unfold scored; rewrite (scores_length os) by exact Hfiles; exact Hmany).
  assert (Hrange : forall r, r ∈ scored -> risk_in_range (Risk r))
    by (intros r; apply scores_in_range).
  split.
  - rewrite (scan_runs os _ rootDir _ Hinfo). do 2 f_equal.
    rewrite (runs_app_dir before d (files ++ after) Hd).
    rewrite (runs_files_then files after Hfiles Hafter).
    rewrite map_app, concat_app. f_equal. simpl.
    destruct after; rewrite ?app_nil_r; reflexivity.
  - destruct (trimDownResults_keeps_riskiest scored Hlen Hrange)
      as (discarded & Hten & Hperm & Hord).
    split; [exact Hten|]. split; [exists discarded; auto|].
    split; [apply array_after_all, Hlen|].
    intros n result Hn Hres. apply array_after_turn; assumption.
Qed.

End RunSelection.

Section RunSamples.
Import F64 Sample Sample2 Sample3.

(** C1, on the walk over two directories: the twelve sample files stand
    between the entry of [/d] and the entry of [/d/sub]. *)
Lemma top_ten_of_run_witness :
  length (trimDownResults twelve_results) = 10 /\
  scan unix initExtensionRiskMap "/d" tree =
    Done {| Dir := "/d";
            Results :=
              trimDownResults twelve_results
              ++ trimDownResults
                   (scores unix initExtensionRiskMap
                      [ entry "/d/sub/a.png" "a.png" 500 recent;
                        entry "/d/sub/big.csv" "big.csv" 2000000 recent;
                        entry "/d/sub/c.zip" "c.zip" 3000 old ]) |}.
Proof.
  destruct (top_ten_of_run unix "/d" [] (dir_entry "/d" "d") twelve
              [ dir_entry "/d/sub" "sub";
                entry "/d/sub/a.png" "a.png" 500 recent;
                entry "/d/sub/big.csv" "big.csv" 2000000 recent;
                entry "/d/sub/c.zip" "c.zip" 3000 old ])
    as (Hscan & Hten & _).
  - repeat (constructor; [eexists; reflexivity|]). constructor.
  - reflexivity.
  - repeat (constructor; [eexists; split; reflexivity|]). constructor.
  - right. eexists _, _. split; reflexivity.
  - vm_compute. lia.
  - split; [exact Hten|]. refine (eq_trans Hscan _). vm_compute. reflexivity.
Defined.

(** C1 as the specification words it fails in both its parts.

    The tie-break, on the twelve sample files: when the twelfth result is
    accepted, the array holds two results of the smallest risk 0.25,
    [/d/k], the eleventh inserted, at position 0, and [/d/b], the second
    inserted, at position 1; the code evicts [/d/k], the later inserted.

    The count per directory, on two trees.  In the first, the twelve files
    of [/d] come after the ten files of its subdirectory [a], with no
    directory entry in between: they are trimmed together and no result of
    [/d] is delivered.  In the second, the twelve files of [/d/a] are
    followed by a file of [/d]: they are trimmed together and nine results
    of [/d/a] are delivered. *)
Lemma top_ten_of_directory_fails :
  (~ evicts_earliest_inserted twelve_results /\
   array_after twelve_results 11 !! 0 = Some result_k /\
   array_after twelve_results 11 !! 1 = Some result_b /\
   inserted_at twelve_results result_k = 10 /\
   inserted_at twelve_results result_b = 1 /\
   trimDownResults twelve_results !! 0 = Some result_l /\
   trimDownResults twelve_results !! 1 = Some result_b) /\
  (~ emits_ten_per_directory unix "/d" files_after_subdirectory /\
   scan unix initExtensionRiskMap "/d" files_after_subdirectory
     = Done {| Dir := "/d"; Results := scores unix initExtensionRiskMap ten_in_a |} /\
   length (List.filter (result_in unix "/d")
             (scores unix initExtensionRiskMap ten_in_a)) = 0) /\
  (~ emits_ten_per_directory unix "/d" file_after_subdirectory /\
   exists d,
     scan unix initExtensionRiskMap "/d" file_after_subdirectory = Done d /\
     length (List.filter (result_in unix "/d/a") (Results d)) = 9).
Proof.
  split; [|split].
  - split; [|repeat split; vm_compute; reflexivity].
    intros H.
    assert (Hle : inserted_at twelve_results result_k <= inserted_at twelve_results result_b).
    { apply (H 11 result_l result_k result_b).
      - vm_compute. lia.
      - vm_compute. reflexivity.
      - vm_compute. reflexivity.
      - vm_compute. reflexivity.
      - apply (list_elem_of_lookup_2 _ 1). vm_compute. reflexivity.
      - vm_compute. reflexivity. }
    vm_compute in Hle. lia.
  - split; [|split; vm_compute; reflexivity].
    intros H.
    assert (Hten : length (List.filter (result_in unix "/d")
                             (Results {| Dir := "/d";
                                         Results := scores unix initExtensionRiskMap ten_in_a |}))
                   = 10).
    { apply (H "/d" (dir_entry "/d" "d" :: dir_entry "/d/a" "a" :: ten_in_a) twelve_in_d []).
      - reflexivity.
      - vm_compute. reflexivity.
      - vm_compute. lia.
      - vm_compute. reflexivity. }
    vm_compute in Hten. discriminate.
  - assert (Hscan : scan unix initExtensionRiskMap "/d" file_after_subdirectory
                    = Done {| Dir := "/d";
                              Results :=
                                trimDownResults
                                  (scores unix initExtensionRiskMap
                                     (twelve_in_a ++ [csv "/d/z.csv" "z.csv"])) |})
      by (vm_compute; reflexivity).
    split.
    + intros H.
      assert (Hten : length (List.filter (result_in unix "/d/a")
                               (Results
                                  {| Dir := "/d";
                                     Results :=
                                       trimDownResults
                                         (scores unix initExtensionRiskMap
                                            (twelve_in_a ++ [csv "/d/z.csv" "z.csv"])) |}))
                     = 10).
      { apply (H "/d/a" [dir_entry "/d" "d"; dir_entry "/d/a" "a"] twelve_in_a
                 [csv "/d/z.csv" "z.csv"]).
        - reflexivity.
        - vm_compute. reflexivity.
        - vm_compute. lia.
        - exact Hscan. }
      vm_compute in Hten. discriminate.
    + eexists. split; [exact Hscan|]. vm_compute. reflexivity.
Qed.

End RunSamples.
